(** * Onto-X: ontology index and ancestor traversal

    Shallow embedding of [app/onto_x.py] (the module the web application
    imports; [onto_x.py] at the top level carries the same [load_ontology]
    and [get_ancestors_with_depth], and inlines the resolver in [main]).

    - Python [dict] is a [gmap], [set] a [gset], [deque] a [list] used as a
      FIFO (popleft at the head, append at the tail).
    - A Python exception is a value of [exn]; a function that may raise
      returns [res].
    - The [while queue] loop runs on fuel; [None] means the fuel ran out
      before the queue emptied. *)

From Stdlib Require Import Ascii String.
From stdpp Require Import gmap strings list fin_maps sorting pretty.

Local Open Scope string_scope.
Local Open Scope nat_scope.
Local Open Scope list_scope.
Set Warnings "-clear-no-such-hyp,-level-tolerance".
Set Default Proof Using "Type".
Set Default Goal Selector "!".

(** ** Python values *)

Module Py.

Inductive exn : Type :=
| KeyError (key : string)
| AttributeError
| IndexError.

Inductive res (A : Type) : Type :=
| Ok (a : A)
| Raise (e : exn).
Arguments Ok {A} a.
Arguments Raise {A} e.

#[export] Instance res_ret : MRet res := λ A a, Ok a.

#[export] Instance res_bind : MBind res := λ A B k m,
  match m with
  | Ok a => k a
  | Raise e => Raise e
  end.

(** [d[k]] *)
Definition getitem {V} (d : gmap string V) (k : string) : res V :=
  match d !! k with
  | Some v => Ok v
  | None => Raise (KeyError k)
  end.

(** [d.get(k, dflt)] *)
Definition get {V} (d : gmap string V) (k : string) (dflt : V) : V :=
  default dflt (d !! k).

(** [k in d] *)
Definition contains {V} (d : gmap string V) (k : string) : bool :=
  bool_decide (is_Some (d !! k)).

(** [for x in xs: st = body(st, x)], stopping at the first exception. *)
Fixpoint for_each {S A} (body : S → A → res S) (xs : list A) (st : S)
  : res S :=
  match xs with
  | [] => Ok st
  | x :: xs' => st' ← body st x; for_each body xs' st'
  end.

(** A character is a code point below 256.  [str.isspace] holds there for
    TAB..CR, FS..US, space, NEL and NBSP. *)
Definition isspace (a : ascii) : bool :=
  let n := nat_of_ascii a in
  (((9 <=? n) && (n <=? 13)) || ((28 <=? n) && (n <=? 32))
   || (n =? 133) || (n =? 160))%nat.

Fixpoint lstrip (s : string) : string :=
  match s with
  | String a s' => if isspace a then lstrip s' else s
  | EmptyString => EmptyString
  end.

Fixpoint rstrip (s : string) : string :=
  match s with
  | String a s' =>
      match rstrip s' with
      | EmptyString => if isspace a then EmptyString else String a EmptyString
      | t => String a t
      end
  | EmptyString => EmptyString
  end.

(** [s.strip()] *)
Definition strip (s : string) : string := rstrip (lstrip s).

Definition lower_char (a : ascii) : ascii :=
  let n := nat_of_ascii a in
  if (((65 <=? n) && (n <=? 90))
      || ((192 <=? n) && (n <=? 222) && negb (n =? 215)))%nat
  then ascii_of_nat (n + 32)%nat else a.

(** [s.lower()] *)
Fixpoint lower (s : string) : string :=
  match s with
  | String a s' => String (lower_char a) (lower s')
  | EmptyString => EmptyString
  end.

(** [s.split(sep)] for a one-character separator: never the empty list. *)
Fixpoint split (sep : ascii) (s : string) : list string :=
  match s with
  | EmptyString => [EmptyString]
  | String a s' =>
      if Ascii.eqb a sep then EmptyString :: split sep s'
      else match split sep s' with
           | t :: ts => String a t :: ts
           | [] => [String a EmptyString]
           end
  end.

(** Truth value of a string: empty is false. *)
Definition truthy (s : string) : bool :=
  match s with EmptyString => false | _ => true end.

End Py.

Import Py.

(** ** The ontology loader *)

(** A record as [csv.DictReader] yields it: column name to cell, where the
    cell of a column the line is too short for is [None]. *)
Abbreviation row := (gmap string (option string)).

(** [cell.strip()]: [None] has no such method. *)
Definition strip_cell (cell : option string) : res string :=
  match cell with
  | Some s => Ok (strip s)
  | None => Raise AttributeError
  end.

(** [row['Parents'].strip() if row['Parents'] else ''] *)
Definition parents_field (r : row) : res string :=
  cell ← getitem r "Parents";
  match cell with
  | Some s => if truthy s then Ok (strip s) else Ok ""
  | None => Ok ""
  end.

Record ontology : Type := Ontology {
  id_to_label : gmap string string;
  label_to_id : gmap string string;
  graph : gmap string (list string)
}.

(** The body of [for row in reader].  [graph] is a [defaultdict(list)]:
    [graph[class_id].extend(parent_list)] appends to the list already
    stored, or to a fresh empty one. *)
Definition load_row (o : ontology) (r : row) : res ontology :=
  id_cell ← getitem r "Class ID";
  class_id ← strip_cell id_cell;
  label_cell ← getitem r "Preferred Label";
  label ← strip_cell label_cell;
  parents ← parents_field r;
  let id_to_label := <[class_id := label]> (id_to_label o) in
  let label_to_id := <[lower label := class_id]> (label_to_id o) in
  if truthy parents then
    let parent_list := strip <$> split "|" parents in
    Ok (Ontology id_to_label label_to_id
          (<[class_id := (get (graph o) class_id [] ++ parent_list)%list]>
             (graph o)))
  else
    Ok (Ontology id_to_label label_to_id (<[class_id := []]> (graph o))).

Definition load_ontology (rows : list row) : res ontology :=
  for_each load_row rows (Ontology ∅ ∅ ∅).

(** The class id and the parent list one record stands for. *)
Definition row_class_id (r : row) : res string :=
  id_cell ← getitem r "Class ID";
  strip_cell id_cell.

Definition row_parent_list (r : row) : res (list string) :=
  parents ← parents_field r;
  Ok (if truthy parents then strip <$> split "|" parents else []).

(** A record with the three columns of the header. *)
Definition mk_row (class_id label parents : option string) : row :=
  <["Class ID" := class_id]>
    (<["Preferred Label" := label]> (<["Parents" := parents]> ∅)).

(** The same class id in two records with different parents. *)
Definition repeated_id_rows : list row :=
  [mk_row (Some "X") (Some "a") (Some "P1");
   mk_row (Some "X") (Some "b") (Some "P2")].

(** A line too short for the parents column. *)
Definition short_rows : list row :=
  [mk_row (Some "X1") (Some "Disorder") None].

(** The scenario of the specification, with one label in capitals. *)
Definition scenario_rows : list row :=
  [mk_row (Some "X1") (Some "Disorder") (Some "");
   mk_row (Some " X2 ") (Some "Cervix DISORDER") (Some "X1 | ROOT");
   mk_row (Some "ROOT") (Some "Thing") (Some "")].

(** A line too short for the label column, after a good one. *)
Definition no_label_rows : list row :=
  [mk_row (Some "X1") (Some "Disorder") (Some ""); mk_row (Some "X2") None None].

(** What [load_ontology] returns on [scenario_rows]. *)
Definition scenario_index : ontology :=
  Ontology
    (<["X1" := "Disorder"]>
       (<["X2" := "Cervix DISORDER"]> (<["ROOT" := "Thing"]> ∅)))
    (<["disorder" := "X1"]>
       (<["cervix disorder" := "X2"]> (<["thing" := "ROOT"]> ∅)))
    (<["X1" := []]> (<["X2" := ["X1"; "ROOT"]]> (<["ROOT" := []]> ∅))).

(** A record lacks a column when the header has no such column or the line
    is too short to reach it. *)
Definition missing (r : row) (column : string) : Prop :=
  r !! column = None ∨ r !! column = Some None.

(** ** The ancestor traversal *)

Definition Thing : string := "http://www.w3.org/2002/07/owl#Thing".

Record bfs_state : Type := BfsState {
  relationships : gmap string nat;
  queue : list (string * nat);
  visited : gset string
}.

(** The body of [for parent_id in graph.get(current_id, [])]. *)
Definition visit_parent (id_to_label : gmap string string)
    (current_depth : nat) (st : bfs_state) (parent_id : string)
  : res bfs_state :=
  if String.eqb parent_id Thing then Ok st
  else if bool_decide (parent_id ∉ visited st) then
    let visited := {[parent_id]} ∪ visited st in
    relationships ←
      (if contains id_to_label parent_id then
         label ← getitem id_to_label parent_id;
         Ok (<[label := (current_depth + 1)%nat]> (relationships st))
       else Ok (relationships st));
    Ok (BfsState relationships
          (queue st ++ [(parent_id, (current_depth + 1)%nat)])%list visited)
  else Ok st.

(** One turn of [while queue]: [popleft], then the [for] loop. *)
Definition iteration (graph : gmap string (list string))
    (id_to_label : gmap string string) (st : bfs_state) : res bfs_state :=
  match queue st with
  | [] => Raise IndexError
  | (current_id, current_depth) :: rest =>
      for_each (visit_parent id_to_label current_depth)
        (get graph current_id [])
        (BfsState (relationships st) rest (visited st))
  end.

Fixpoint while_queue (fuel : nat) (graph : gmap string (list string))
    (id_to_label : gmap string string) (st : bfs_state)
  : option (res bfs_state) :=
  match queue st with
  | [] => Some (Ok st)
  | _ :: _ =>
      match fuel with
      | 0 => None
      | S fuel' =>
          match iteration graph id_to_label st with
          | Ok st' => while_queue fuel' graph id_to_label st'
          | Raise e => Some (Raise e)
          end
      end
  end.

Definition initial (class_id : string) : bfs_state :=
  BfsState ∅ [(class_id, 0)] {[class_id]}.

(** Every id the traversal can meet: the start and all listed parents. *)
Definition universe (graph : gmap string (list string)) (class_id : string)
  : gset string :=
  {[class_id]} ∪ ⋃ (list_to_set <$> (map_to_list graph).*2).

Definition bfs_run (fuel : nat) (class_id : string)
    (graph : gmap string (list string)) (id_to_label : gmap string string)
  : option (res bfs_state) :=
  while_queue fuel graph id_to_label (initial class_id).

Definition get_ancestors_with_depth_fuel (fuel : nat) (class_id : string)
    (graph : gmap string (list string)) (id_to_label : gmap string string)
  : option (res (gmap string nat)) :=
  match bfs_run fuel class_id graph id_to_label with
  | Some (Ok st) => Some (Ok (relationships st))
  | Some (Raise e) => Some (Raise e)
  | None => None
  end.

(** The traversal with as many turns as the universe has ids. *)
Definition get_ancestors_with_depth (class_id : string)
    (graph : gmap string (list string)) (id_to_label : gmap string string)
  : option (res (gmap string nat)) :=
  get_ancestors_with_depth_fuel (size (universe graph class_id))
    class_id graph id_to_label.

(** ** The resolver *)

(** [None] is Python's [None]. *)
Definition find_entity_id (query : string)
    (id_to_label label_to_id : gmap string string) : res (option string) :=
  let query := strip query in
  if contains id_to_label query then Ok (Some query)
  else
    let q_lower := lower query in
    if contains label_to_id q_lower then
      i ← getitem label_to_id q_lower; Ok (Some i)
    else Ok None.

(** ** Observations of a run *)

(** The state after at most [n] turns of [while queue]. *)
Fixpoint state_after (n : nat) (graph : gmap string (list string))
    (id_to_label : gmap string string) (st : bfs_state) : res bfs_state :=
  match n, queue st with
  | S n', _ :: _ =>
      st' ← iteration graph id_to_label st;
      state_after n' graph id_to_label st'
  | _, _ => Ok st
  end.

(** The ids [popleft] hands out, in order.  When the loop ends with an empty
    queue this is the order in which the ids were put on the queue. *)
Fixpoint dequeued (fuel : nat) (graph : gmap string (list string))
    (id_to_label : gmap string string) (st : bfs_state) : list string :=
  match fuel, queue st with
  | S fuel', (current_id, _) :: _ =>
      match iteration graph id_to_label st with
      | Ok st' => current_id :: dequeued fuel' graph id_to_label st'
      | Raise _ => [current_id]
      end
  | _, _ => []
  end.

(** ** Hop counts *)

(** Parent edges as the loop follows them: the sentinel is no target. *)
Definition real_parents (graph : gmap string (list string)) (u : string)
  : list string :=
  filter (λ p, p ≠ Thing) (get graph u []).

(** Parent edges as the source data lists them. *)
Definition listed_parents (graph : gmap string (list string)) (u : string)
  : list string :=
  get graph u [].

(** The ids exactly [n] edges away from [s]. *)
Fixpoint hops (next : string → list string) (n : nat) (s : string)
  : list string :=
  match n with
  | 0 => [s]
  | S n' => hops next n' s ≫= next
  end.

(** [d] is the least number of edges from [s] to [v]. *)
Definition min_hops (next : string → list string) (s v : string) (d : nat)
  : Prop :=
  v ∈ hops next d s ∧ Forall (λ d', v ∉ hops next d' s) (seq 0 d).

#[global] Instance min_hops_dec next s v d : Decision (min_hops next s v d).
Proof. unfold min_hops. apply _. Defined.

(** ** The loop invariant *)

Definition by_depth (x y : string * nat) : Prop := x.2 ≤ y.2.

(** [cur] is the id whose parents are being visited, if any; [k] its depth,
    or the depth at the head of the queue between two turns. *)
Record bfs_inv (graph : gmap string (list string))
    (id_to_label : gmap string string) (c : string)
    (cur : option string) (k : nat) (st : bfs_state) : Prop := BfsInv {
  inv_start : c ∈ visited st;
  inv_universe : visited st ⊆ universe graph c;
  inv_queue : ∀ v d, (v, d) ∈ queue st →
    v ∈ visited st ∧ min_hops (real_parents graph) c v d ∧ k ≤ d ≤ k + 1;
  inv_sorted : StronglySorted by_depth (queue st);
  inv_nodup : NoDup (queue st).*1;
  inv_reach : ∀ v, v ∈ visited st →
    ∃ d, min_hops (real_parents graph) c v d;
  inv_level : ∀ w d, min_hops (real_parents graph) c w d → d ≤ k →
    w ∈ visited st;
  inv_done : ∀ v, v ∈ visited st →
    cur = Some v ∨ (v ∈ (queue st).*1)
    ∨ (∀ w, w ∈ real_parents graph v → w ∈ visited st);
  inv_cur : ∀ u, cur = Some u →
    u ∈ visited st ∧ (u ∉ (queue st).*1)
    ∧ min_hops (real_parents graph) c u k;
  inv_sound : ∀ l d, relationships st !! l = Some d →
    ∃ v, v ∈ visited st ∧ v ≠ c ∧ id_to_label !! v = Some l
         ∧ min_hops (real_parents graph) c v d;
  inv_complete : ∀ v l, v ∈ visited st → v ≠ c →
    id_to_label !! v = Some l →
    ∃ d d', relationships st !! l = Some d
            ∧ min_hops (real_parents graph) c v d' ∧ d' ≤ d;
  inv_bound : ∀ l d, relationships st !! l = Some d → d ≤ k + 1
}.

(** The invariant between two turns of [while queue]. *)
Definition loop_inv (graph : gmap string (list string))
    (id_to_label : gmap string string) (c : string) (st : bfs_state) : Prop :=
  ∃ k, bfs_inv graph id_to_label c None k st
       ∧ ∀ v d rest, queue st = (v, d) :: rest → d = k.

(** What is left to do: ids not yet seen, and ids waiting on the queue. *)
Definition measure (graph : gmap string (list string)) (c : string)
    (st : bfs_state) : nat :=
  size (universe graph c ∖ visited st) + length (queue st).

(** ** Small ontologies *)

(** Diamond: A has parents B and C, both with parent D; labels are the ids. *)
Definition diamond_graph : gmap string (list string) :=
  <["A" := ["B"; "C"]]> (<["B" := ["D"]]> (<["C" := ["D"]]> ∅)).

Definition diamond_names : gmap string string :=
  <["A" := "A"]> (<["B" := "B"]> (<["C" := "C"]> (<["D" := "D"]> ∅))).

(** Two ids with one label: A, one and two hops from S, and Z above A. *)
Definition shared_label_graph : gmap string (list string) :=
  <["S" := ["A"; "B"]]> (<["B" := ["A"]]> (<["A" := ["Z"]]> ∅)).

Definition shared_label_names : gmap string string :=
  <["A" := "x"]> (<["Z" := "x"]> ∅).

(** A is two hops from S through the sentinel, three hops through B and C. *)
Definition detour_graph : gmap string (list string) :=
  <["S" := [Thing; "B"]]>
    (<[Thing := ["A"]]> (<["B" := ["C"]]> (<["C" := ["A"]]> ∅))).

Definition detour_names : gmap string string :=
  <["A" := "a"]> (<["B" := "b"]> (<["C" := "c"]> ∅)).

(** The sentinel is itself an entity with a parent that cites it back. *)
Definition sentinel_start_graph : gmap string (list string) :=
  <[Thing := ["A"]]> (<["A" := [Thing]]> ∅).

Definition sentinel_start_names : gmap string string :=
  <["A" := "a"]> ∅.

(** A two-cycle whose two entities carry the same label. *)
Definition cycle_graph : gmap string (list string) :=
  <["S" := ["A"]]> (<["A" := ["S"]]> ∅).

Definition cycle_names : gmap string string :=
  <["S" := "x"]> (<["A" := "x"]> ∅).

(** The two-cycle with a label for each entity. *)
Definition cycle_names_distinct : gmap string string :=
  <["S" := "s"]> (<["A" := "a"]> ∅).

(** U has no label; above it A and then B carry the same label. *)
Definition unlabelled_graph : gmap string (list string) :=
  <["S" := ["U"]]> (<["U" := ["A"]]> (<["A" := ["B"]]> ∅)).

Definition unlabelled_names : gmap string string :=
  <["A" := "x"]> (<["B" := "x"]> ∅).

(** U has no label; above it A and then B, each with a label of its own. *)
Definition unlabelled_names_distinct : gmap string string :=
  <["A" := "a"]> (<["B" := "b"]> ∅).

(** U has no label and cites the start S, which has one, back. *)
Definition back_edge_graph : gmap string (list string) :=
  <["S" := ["U"]]> (<["U" := ["S"]]> ∅).

Definition back_edge_names : gmap string string :=
  <["S" := "s"]> ∅.

(** U has no label and cites the sentinel, which has one. *)
Definition sentinel_parent_graph : gmap string (list string) :=
  <["S" := ["U"]]> (<["U" := [Thing]]> ∅).

Definition sentinel_parent_names : gmap string string :=
  <[Thing := "Thing"]> ∅.

(** ** More of the loader's records *)

(** The label one record stands for. *)
Definition row_label (r : row) : res string :=
  label_cell ← getitem r "Preferred Label";
  strip_cell label_cell.

(** A record on which the body of the row loop raises: no class id or no
    label (column absent or cell [None]), or no parents column. *)
Definition fatal (r : row) : Prop :=
  missing r "Class ID" ∨ missing r "Preferred Label" ∨ r !! "Parents" = None.

#[global] Instance fatal_dec r : Decision (fatal r).
Proof. unfold fatal, missing. apply _. Defined.

(** What can raise in [load_ontology] outside the body of the row loop: the
    file cannot be opened, its bytes are no UTF-8, or the csv reader rejects
    a line (a cell that is too long, for one). *)
Inductive reader_error : Type :=
| OSError
| UnicodeDecodeError
| CsvError.

(** A source as [for row in reader] sees it: the records the reader yields,
    and how it stops after them, at the end of the file or with an error. *)
Record source : Type := Source {
  yielded : list row;
  failure : option reader_error
}.

(** How a call of [load_ontology] on a source ends. *)
Inductive load_result : Type :=
| Loaded (o : ontology)
| RowRaised (e : exn)
| ReaderRaised (e : reader_error).

(** The row loop runs over the records yielded; when its body has raised on
    none of them, the reader's own error, if any, comes through. *)
Definition load_source (src : source) : load_result :=
  match load_ontology (yielded src) with
  | Raise e => RowRaised e
  | Ok o =>
      match failure src with
      | Some e => ReaderRaised e
      | None => Loaded o
      end
  end.

#[global] Instance exn_eq_dec : EqDecision exn.
Proof. solve_decision. Defined.

#[global] Instance res_eq_dec {A} `{EqDecision A} : EqDecision (res A).
Proof. solve_decision. Defined.

(** ** The web application *)

(** The handlers of [app/main.py] read the three maps that the module
    loads when it starts; here they take them as an argument. *)

(** What a call of a handler comes to: it returns a body, it raises
    fastapi's [HTTPException], or it lets another exception through. *)
Inductive response (A : Type) : Type :=
| Returns (body : A)
| HTTPException (status_code : nat) (detail : string)
| Uncaught (e : exn).
Arguments Returns {A} body.
Arguments HTTPException {A} status_code detail.
Arguments Uncaught {A} e.

(** The handler of [/ancestors].  [if not class_id] holds for [None] and
    for the empty string.  The loop over [ancestors.items()] copies the
    mapping entry by entry. *)
Definition get_ancestors (o : ontology) (query : string)
  : option (response (gmap string nat)) :=
  match find_entity_id query (id_to_label o) (label_to_id o) with
  | Raise e => Some (Uncaught e)
  | Ok None => Some (HTTPException 404 "Entity not found")
  | Ok (Some class_id) =>
      if truthy class_id then
        match get_ancestors_with_depth class_id (graph o) (id_to_label o) with
        | Some (Ok ancestors) =>
            Some (Returns
                    (map_fold (λ label depth output, <[label := depth]> output)
                       ∅ ancestors))
        | Some (Raise e) => Some (Uncaught e)
        | None => None
        end
      else Some (HTTPException 404 "Entity not found")
  end.

(** [s.startswith(prefix)] *)
Fixpoint startswith (s prefix : string) : bool :=
  match prefix, s with
  | EmptyString, _ => true
  | String a prefix', String b s' => Ascii.eqb a b && startswith s' prefix'
  | String _ _, EmptyString => false
  end.

(** [needle in hay] for two strings. *)
Fixpoint str_in (needle hay : string) : bool :=
  startswith hay needle
  || match hay with
     | String _ hay' => str_in needle hay'
     | EmptyString => false
     end.

(** [d[k] = v] on a dict kept with its iteration order: a key already there
    keeps its place, a new key goes to the end. *)
Fixpoint dict_setitem {V} (k : string) (v : V) (d : list (string * V))
  : list (string * V) :=
  match d with
  | [] => [(k, v)]
  | (k', v') :: d' =>
      if String.eqb k' k then (k, v) :: d' else (k', v') :: dict_setitem k v d'
  end.

(** The body of the row loop of [load_ontology], for [id_to_label] alone and
    with its iteration order. *)
Definition load_row_items (items : list (string * string)) (r : row)
  : res (list (string * string)) :=
  id_cell ← getitem r "Class ID";
  class_id ← strip_cell id_cell;
  label_cell ← getitem r "Preferred Label";
  label ← strip_cell label_cell;
  _ ← parents_field r;
  Ok (dict_setitem class_id label items).

(** [id_to_label.items()] after [load_ontology]. *)
Definition id_to_label_items (rows : list row) : res (list (string * string)) :=
  for_each load_row_items rows [].

(** The handler of [/search]: [id_to_label] comes with its iteration order,
    and the value returned is the list under ["suggestions"]. *)
Definition search_labels (id_to_label : list (string * string))
    (query : string) : list string :=
  let query_lower := lower query in
  filter (λ label, str_in query_lower (lower label)) id_to_label.*2.

(** A source with an entity whose class id is blank. *)
Definition blank_id_rows : list row :=
  [mk_row (Some " ") (Some "Nameless") (Some "X1");
   mk_row (Some "X1") (Some "Disorder") (Some "")].

(** ** The command line program *)

(** [onto_x.py] at the top level has the same [load_ontology] and the same
    [get_ancestors_with_depth] as [app/onto_x.py]; its [main] prints
    [relationships] from its items, so here the traversal keeps
    [relationships] with its iteration order. *)

#[export] Instance res_fmap : FMap res := λ A B f m,
  match m with
  | Ok a => Ok (f a)
  | Raise e => Raise e
  end.

Module Ordered.

Record bfs_state : Type := BfsState {
  relationships : list (string * nat);
  queue : list (string * nat);
  visited : gset string
}.

Definition visit_parent (id_to_label : gmap string string)
    (current_depth : nat) (st : bfs_state) (parent_id : string)
  : res bfs_state :=
  if String.eqb parent_id Thing then Ok st
  else if bool_decide (parent_id ∉ visited st) then
    let visited := {[parent_id]} ∪ visited st in
    relationships ←
      (if contains id_to_label parent_id then
         label ← getitem id_to_label parent_id;
         Ok (dict_setitem label (current_depth + 1) (relationships st))
       else Ok (relationships st));
    Ok (BfsState relationships
          (queue st ++ [(parent_id, current_depth + 1)]) visited)
  else Ok st.

Definition iteration (graph : gmap string (list string))
    (id_to_label : gmap string string) (st : bfs_state) : res bfs_state :=
  match queue st with
  | [] => Raise IndexError
  | (current_id, current_depth) :: rest =>
      for_each (visit_parent id_to_label current_depth)
        (get graph current_id [])
        (BfsState (relationships st) rest (visited st))
  end.

Fixpoint while_queue (fuel : nat) (graph : gmap string (list string))
    (id_to_label : gmap string string) (st : bfs_state)
  : option (res bfs_state) :=
  match queue st with
  | [] => Some (Ok st)
  | _ :: _ =>
      match fuel with
      | 0 => None
      | S fuel' =>
          match iteration graph id_to_label st with
          | Ok st' => while_queue fuel' graph id_to_label st'
          | Raise e => Some (Raise e)
          end
      end
  end.

Definition initial (class_id : string) : bfs_state :=
  BfsState [] [(class_id, 0)] {[class_id]}.

(** [relationships.items()] of the result. *)
Definition get_ancestors_with_depth (class_id : string)
    (graph : gmap string (list string)) (id_to_label : gmap string string)
  : option (res (list (string * nat))) :=
  match while_queue (size (universe graph class_id)) graph id_to_label
          (initial class_id) with
  | Some (Ok st) => Some (Ok (relationships st))
  | Some (Raise e) => Some (Raise e)
  | None => None
  end.

End Ordered.

(** The state with [relationships] read as a mapping. *)
Definition unordered (st : Ordered.bfs_state) : bfs_state :=
  BfsState (list_to_map (Ordered.relationships st)) (Ordered.queue st)
    (Ordered.visited st).

(** [sorted(items, key=lambda x: x[1])]: the sort is stable, so an entry
    goes before the entries of the same depth that came after it. *)
Fixpoint insert_by_depth (x : string * nat) (l : list (string * nat))
  : list (string * nat) :=
  match l with
  | [] => [x]
  | y :: l' => if decide (x.2 ≤ y.2) then x :: l else y :: insert_by_depth x l'
  end.

Definition sorted_by_depth (items : list (string * nat))
  : list (string * nat) :=
  foldr insert_by_depth [] items.

(** The double quote. *)
Definition dquote : ascii := ascii_of_nat 34.

(** The line the format string of [main] gives for one entry: four blanks,
    the label in double quotes, a colon, a blank, the depth in decimal and a
    comma. *)
Definition format_entry (entry : string * nat) : string :=
  "    " +:+ String dquote (entry.1 +:+ String dquote (": " +:+ pretty entry.2 +:+ ",")).

(** How a run of the program ends: [main] returns, [sys.exit] is called, or
    an exception is not caught.  [stdout] holds the lines printed. *)
Inductive process : Type :=
| Finished (stdout : list string)
| SystemExit (code : nat) (stdout : list string)
| Traceback (e : exn).

(** [main], after [argparse]: [rows] is what the file named by [--csv]
    holds, [query_arg] the value of [--query]. *)
Definition main (rows : list row) (query_arg : string) : option process :=
  match load_ontology rows with
  | Raise e => Some (Traceback e)
  | Ok o =>
      let query := strip query_arg in
      let resolved : res (option string) :=
        if contains (id_to_label o) query then Ok (Some query)
        else
          let q_lower := lower query in
          if contains (label_to_id o) q_lower then
            class_id ← getitem (label_to_id o) q_lower; Ok (Some class_id)
          else Ok None in
      match resolved with
      | Raise e => Some (Traceback e)
      | Ok None => Some (SystemExit 1 ["Entity not found in ontology."])
      | Ok (Some class_id) =>
          match Ordered.get_ancestors_with_depth class_id (graph o)
                  (id_to_label o) with
          | Some (Ok relationships) =>
              let sorted_rel := sorted_by_depth relationships in
              Some (Finished
                      (["{"] ++ (format_entry <$> sorted_rel) ++ ["}"]))
          | Some (Raise e) => Some (Traceback e)
          | None => None
          end
      end
  end.

(** [sep.join(tokens)] for a one-character separator: how a parents cell is
    written from its parent ids. *)
Fixpoint join (sep : ascii) (tokens : list string) : string :=
  match tokens with
  | [] => ""
  | [t] => t
  | t :: tokens' => t +:+ String sep (join sep tokens')
  end.

(** * Properties *)

(** ** Python values *)

Example strip_ex : strip "  Cervix  Disorder	 " = "Cervix  Disorder".
Proof. reflexivity. Qed.

Example lower_ex : lower "CERVIX Disorder" = "cervix disorder".
Proof. reflexivity. Qed.

Example split_ex : split "|" "a| b |" = ["a"; " b "; ""].
Proof. reflexivity. Qed.

Lemma contains_true {V} (d : gmap string V) k :
  contains d k = true ↔ is_Some (d !! k).
Proof. unfold contains. by rewrite bool_decide_eq_true. Qed.

Lemma contains_false {V} (d : gmap string V) k :
  contains d k = false ↔ d !! k = None.
Proof.
  unfold contains. rewrite bool_decide_eq_false. symmetry.
  apply eq_None_not_Some.
Qed.

Lemma for_each_app {S A} (body : S → A → res S) xs ys st :
  for_each body (xs ++ ys) st = (st' ← for_each body xs st; for_each body ys st').
Proof.
  revert st. induction xs as [|x xs IH]; intros st; simpl; [done|].
  destruct (body st x) as [st1|e]; simpl; [apply IH | done].
Qed.

(** ** Hop counts *)

Section Hops.
Variable next : string → list string.
Variable s : string.

Lemma hops_0 v : v ∈ hops next 0 s ↔ v = s.
Proof. simpl. by rewrite list_elem_of_singleton. Qed.

Lemma hops_S n v : v ∈ hops next (S n) s ↔ ∃ u, u ∈ hops next n s ∧ v ∈ next u.
Proof.
  simpl. rewrite list_elem_of_bind.
  split; intros (u & ? & ?); by exists u.
Qed.

Lemma min_hops_lt v d d' : min_hops next s v d → d' < d → v ∉ hops next d' s.
Proof.
  intros [_ Hall] Hlt. rewrite Forall_forall in Hall.
  apply Hall, elem_of_seq. lia.
Qed.

Lemma min_hops_intro v d :
  v ∈ hops next d s → (∀ d', d' < d → v ∉ hops next d' s) → min_hops next s v d.
Proof.
  intros Hin Hmin. split; [done|]. apply Forall_forall.
  intros d' Hd'. apply elem_of_seq in Hd'. apply Hmin. lia.
Qed.

Lemma min_hops_fun v d1 d2 :
  min_hops next s v d1 → min_hops next s v d2 → d1 = d2.
Proof.
  intros H1 H2. destruct (lt_eq_lt_dec d1 d2) as [[Hlt|]|Hlt]; [|done|].
  - destruct (min_hops_lt _ _ _ H2 Hlt). apply H1.
  - destruct (min_hops_lt _ _ _ H1 Hlt). apply H2.
Qed.

Lemma min_hops_start : min_hops next s s 0.
Proof. split; [by apply hops_0 | constructor]. Qed.

Lemma min_hops_0 v : min_hops next s v 0 → v = s.
Proof. intros [H _]. by apply hops_0. Qed.

Lemma hops_min_hops n v :
  v ∈ hops next n s → ∃ d, d ≤ n ∧ min_hops next s v d.
Proof.
  induction n as [n IH] using lt_wf_ind. intros Hin.
  destruct (decide (Exists (λ d', v ∈ hops next d' s) (seq 0 n)))
    as [Hex|Hnex].
  - apply Exists_exists in Hex as (d' & Hd' & Hin').
    apply elem_of_seq in Hd'.
    destruct (IH d') as (d & ? & ?); [lia|done|]. exists d. split; [lia|done].
  - exists n. split; [done|]. split; [done|].
    by apply (not_Exists_Forall _).
Qed.

Lemma min_hops_pred v d :
  min_hops next s v (S d) → ∃ u, u ∈ hops next d s ∧ v ∈ next u.
Proof. intros [H _]. by apply hops_S. Qed.

End Hops.

Lemma real_parents_spec g u p :
  p ∈ real_parents g u ↔ p ∈ get g u [] ∧ p ≠ Thing.
Proof. unfold real_parents. rewrite list_elem_of_filter. tauto. Qed.

Lemma min_hops_real_not_Thing g c v d :
  min_hops (real_parents g) c v d → v = c ∨ v ≠ Thing.
Proof.
  destruct d as [|d]; intros H.
  - left. by apply min_hops_0 in H.
  - right. apply min_hops_pred in H as (u & _ & Hp).
    by apply real_parents_spec in Hp as [_ ?].
Qed.

Lemma hops_add next m n c a v :
  a ∈ hops next m c → v ∈ hops next n a → v ∈ hops next (m + n) c.
Proof.
  intros Ha. revert v. induction n as [|n IH]; intros v.
  - intros ->%hops_0. by rewrite Nat.add_0_r.
  - intros (u & Hu & Hv)%hops_S. rewrite Nat.add_succ_r. apply hops_S.
    exists u. split; [by apply IH|done].
Qed.

Lemma parents_in_universe g c u p : p ∈ get g u [] → p ∈ universe g c.
Proof.
  unfold get, universe. intros Hp.
  destruct (g !! u) as [ps|] eqn:Hu; simpl in Hp; [|by apply elem_of_nil in Hp].
  apply elem_of_union_r, elem_of_union_list.
  exists (list_to_set ps). split; [|by apply elem_of_list_to_set].
  apply list_elem_of_fmap. exists ps. split; [done|].
  apply list_elem_of_fmap. exists (u, ps). split; [done|].
  by apply elem_of_map_to_list.
Qed.

(** ** One parent *)

Lemma visit_parent_Thing itl d st : visit_parent itl d st Thing = Ok st.
Proof. unfold visit_parent. by rewrite String.eqb_refl. Qed.

Lemma visit_parent_seen itl d st p :
  p ∈ visited st → visit_parent itl d st p = Ok st.
Proof.
  intros Hin. unfold visit_parent. destruct (String.eqb p Thing); [done|].
  rewrite bool_decide_eq_false_2; [done|]. by intros [].
Qed.

Lemma visit_parent_new itl d st p :
  p ≠ Thing → p ∉ visited st →
  visit_parent itl d st p =
    Ok (BfsState
          (match itl !! p with
           | Some l => <[l := d + 1]> (relationships st)
           | None => relationships st
           end)
          (queue st ++ [(p, d + 1)]) ({[p]} ∪ visited st)).
Proof.
  intros Hne Hnew. unfold visit_parent.
  apply String.eqb_neq in Hne. rewrite Hne.
  rewrite bool_decide_eq_true_2 by done.
  destruct (itl !! p) as [l|] eqn:Hl.
  - rewrite (proj2 (contains_true itl p)) by (rewrite Hl; eauto).
    unfold getitem. by rewrite Hl.
  - by rewrite (proj2 (contains_false itl p)).
Qed.

Lemma elem_of_fst_queue (q : list (string * nat)) v :
  v ∈ q.*1 ↔ ∃ d, (v, d) ∈ q.
Proof.
  rewrite list_elem_of_fmap. split.
  - intros ([v' d] & -> & Hin). by exists d.
  - intros (d & Hin). by exists (v, d).
Qed.

Lemma size_difference_fresh (U X : gset string) p :
  p ∈ U → p ∉ X → size (U ∖ X) = S (size (U ∖ ({[p]} ∪ X))).
Proof.
  intros HU HX.
  assert (U ∖ X = {[p]} ∪ U ∖ ({[p]} ∪ X)) as ->.
  { apply set_eq. intros x. rewrite !elem_of_union, !elem_of_difference,
      !elem_of_union, !elem_of_singleton.
    destruct (decide (x = p)) as [->|]; naive_solver. }
  rewrite size_union by set_solver. by rewrite size_singleton.
Qed.

Section Traversal.
Variable g : gmap string (list string).
Variable itl : gmap string string.
Variable c : string.

Local Abbreviation mh := (min_hops (real_parents g) c).
Local Abbreviation inv := (bfs_inv g itl c).

Lemma inv_queue_visited cur k st v :
  inv cur k st → v ∈ (queue st).*1 → v ∈ visited st.
Proof.
  intros HI Hv. apply elem_of_fst_queue in Hv as [d Hv].
  by apply (inv_queue _ _ _ _ _ _ HI) in Hv as [? _].
Qed.

Lemma fresh_parent_min_hops u k st p :
  inv (Some u) k st → p ∈ real_parents g u → p ∉ visited st → mh p (k + 1).
Proof.
  intros HI Hp Hnew.
  destruct (inv_cur _ _ _ _ _ _ HI u eq_refl) as (_ & _ & [Hu _]).
  apply min_hops_intro.
  - replace (k + 1) with (S k) by lia. apply hops_S. by exists u.
  - intros d' Hd' Hin. apply hops_min_hops in Hin as (d & Hd & Hmin).
    apply Hnew, (inv_level _ _ _ _ _ _ HI p d); [done|lia].
Qed.

Lemma visit_parent_inv u k st p :
  inv (Some u) k st → p ∈ get g u [] →
  ∃ st', visit_parent itl k st p = Ok st'
    ∧ inv (Some u) k st'
    ∧ (p ≠ Thing → p ∈ visited st')
    ∧ visited st ⊆ visited st'
    ∧ (∀ x, x ∈ (queue st').*1 → x ∈ (queue st).*1 ∨ x ∉ visited st)
    ∧ measure g c st' = measure g c st.
Proof.
  intros HI Hp.
  destruct (decide (p = Thing)) as [->|Hne].
  { exists st. rewrite visit_parent_Thing. split_and!; auto. done. }
  destruct (decide (p ∈ visited st)) as [Hseen|Hnew].
  { exists st. rewrite visit_parent_seen by done. split_and!; auto. }
  rewrite visit_parent_new by done. eexists. split; [done|].
  assert (p ∈ real_parents g u) as Hrp by by apply real_parents_spec.
  pose proof (fresh_parent_min_hops _ _ _ _ HI Hrp Hnew) as Hmin.
  assert (p ≠ c) as Hpc.
  { intros ->. by apply Hnew, (inv_start _ _ _ _ _ _ HI). }
  destruct HI as [Hstart Huni Hq Hsorted Hnodup Hreach Hlevel Hdone Hcur
                    Hsound Hcomplete Hbound].
  split_and!; simpl.
  - constructor; simpl.
    + set_solver.
    + pose proof (parents_in_universe g c u p Hp). set_solver.
    + intros v d [Hin|Hin%list_elem_of_singleton]%elem_of_app.
      * destruct (Hq v d Hin) as (? & ? & ?).
        split_and!; first [done | lia | set_solver].
      * injection Hin as -> ->. split_and!; [set_solver|done|lia|lia].
    + apply StronglySorted_app_2; [|done|repeat constructor].
      intros [v d] x2 Hin Heq%list_elem_of_singleton. subst x2.
      unfold by_depth. simpl.
      destruct (Hq v d Hin) as (_ & _ & ?). lia.
    + rewrite fmap_app. apply NoDup_app. split_and!; [done| |].
      * intros x Hx Heq%list_elem_of_singleton. simpl in Heq. subst x.
        apply elem_of_fst_queue in Hx as [d Hx].
        by destruct (Hq p d Hx) as [? _].
      * apply NoDup_singleton.
    + intros v [->%elem_of_singleton|Hv]%elem_of_union; eauto.
    + intros w d Hw Hd. apply elem_of_union_r. eauto.
    + intros v [->%elem_of_singleton|Hv]%elem_of_union.
      * right; left. rewrite fmap_app. apply elem_of_app. right.
        by apply list_elem_of_singleton.
      * destruct (Hdone v Hv) as [?|[?|Hfin]]; [by left| |].
        -- right; left. rewrite fmap_app. apply elem_of_app. by left.
        -- right; right. intros w Hw. apply elem_of_union_r. by apply Hfin.
    + intros u' Hu'. destruct (Hcur u' Hu') as (Huv & Huq & Humin).
      split_and!; [set_solver| |done].
      rewrite fmap_app. intros [?|Heq%list_elem_of_singleton]%elem_of_app;
        [done|]. simpl in Heq. subst u'. by apply Hnew.
    + intros l d. destruct (itl !! p) as [lp|] eqn:Hlp.
      * rewrite lookup_insert. case_decide as Hl.
        -- intros [= <-]. subst l. exists p. split_and!; [set_solver|done..].
        -- intros Hold. destruct (Hsound l d Hold) as (v & ? & ? & ? & ?).
           exists v. split_and!; [set_solver|done..].
      * intros Hold. destruct (Hsound l d Hold) as (v & ? & ? & ? & ?).
        exists v. split_and!; [set_solver|done..].
    + intros v l [->%elem_of_singleton|Hv]%elem_of_union Hvc Hl.
      * rewrite Hl. rewrite lookup_insert_eq. exists (k + 1), (k + 1). eauto.
      * destruct (Hcomplete v l Hv Hvc Hl) as (d & d' & Hd & Hd' & Hle).
        destruct (itl !! p) as [lp|]; [|by eauto].
        rewrite lookup_insert. case_decide; [|by eauto].
        subst lp. exists (k + 1), d'. split_and!; [done..|].
        pose proof (Hbound l d Hd). lia.
    + intros l d. destruct (itl !! p) as [lp|]; [|by apply Hbound].
      rewrite lookup_insert. case_decide; [|by apply Hbound].
      intros [= <-]. lia.
  - intros _. set_solver.
  - set_solver.
  - intros x. rewrite fmap_app.
    intros [?|Heq%list_elem_of_singleton]%elem_of_app; [by left|].
    simpl in Heq. subst x. by right.
  - unfold measure. simpl. rewrite length_app. simpl.
    rewrite (size_difference_fresh (universe g c) (visited st) p); [lia| |done].
    by apply (parents_in_universe g c u p).
Qed.

(** ** The [for] loop over the parents of one id *)

Lemma for_parents_inv u k ps st :
  inv (Some u) k st → (∀ p, p ∈ ps → p ∈ get g u []) →
  ∃ st', for_each (visit_parent itl k) ps st = Ok st'
    ∧ inv (Some u) k st'
    ∧ (∀ p, p ∈ ps → p ≠ Thing → p ∈ visited st')
    ∧ visited st ⊆ visited st'
    ∧ (∀ x, x ∈ (queue st').*1 → x ∈ (queue st).*1 ∨ x ∉ visited st)
    ∧ measure g c st' = measure g c st.
Proof.
  revert st. induction ps as [|p ps IH]; intros st HI Hps.
  { exists st. split_and!; auto. intros p Hp. by apply elem_of_nil in Hp. }
  destruct (visit_parent_inv u k st p HI) as
    (st1 & Hrun1 & HI1 & Hp1 & Hmono1 & Hq1 & Hm1).
  { apply Hps. by left. }
  destruct (IH st1 HI1) as (st2 & Hrun2 & HI2 & Hp2 & Hmono2 & Hq2 & Hm2).
  { intros p' Hp'. apply Hps. by right. }
  exists st2. simpl. rewrite Hrun1. simpl. split_and!; [done|done| | | |lia].
  - intros p' [->|Hp']%elem_of_cons Hne; [|by apply Hp2].
    by apply Hmono2, Hp1.
  - set_solver.
  - intros x Hx. destruct (Hq2 x Hx) as [Hx1|Hx1].
    + apply Hq1 in Hx1. tauto.
    + right. intros Hv. by apply Hx1, Hmono1.
Qed.

(** ** One turn of [while queue] *)

Lemma inv_pop u k rest st :
  inv None k st → queue st = (u, k) :: rest →
  inv (Some u) k (BfsState (relationships st) rest (visited st)).
Proof.
  intros [Hstart Huni Hq Hsorted Hnodup Hreach Hlevel Hdone Hcur
            Hsound Hcomplete Hbound] Hqueue.
  rewrite Hqueue in *. destruct (Hq u k) as (Huv & Humin & _); [by left|].
  apply StronglySorted_cons in Hsorted as [_ Hsorted].
  rewrite fmap_cons in *. apply NoDup_cons in Hnodup as [Hfresh Hnodup].
  constructor; simpl; try done.
  - intros v d Hin. apply Hq. by right.
  - intros v Hv. destruct (Hdone v Hv) as [?|[Hin|?]]; [done| |by auto].
    apply elem_of_cons in Hin as [->|?]; auto.
  - by intros ? [= <-].
Qed.

Lemma inv_finish u k st :
  inv (Some u) k st → (∀ p, p ∈ real_parents g u → p ∈ visited st) →
  inv None k st.
Proof.
  intros [Hstart Huni Hq Hsorted Hnodup Hreach Hlevel Hdone Hcur
            Hsound Hcomplete Hbound] Hfin.
  constructor; try done.
  intros v Hv. destruct (Hdone v Hv) as [[= ->]|[?|?]]; auto.
Qed.

Lemma inv_next_level k st v d rest :
  inv None k st → queue st = (v, d) :: rest → inv None d st.
Proof.
  intros HI Hqueue.
  pose proof HI as [Hstart Huni Hq Hsorted Hnodup Hreach Hlevel Hdone Hcur
                      Hsound Hcomplete Hbound].
  assert (∀ v' d', (v', d') ∈ queue st → d ≤ d') as Hhead.
  { rewrite Hqueue in *. apply StronglySorted_cons in Hsorted as [Hle _].
    rewrite Forall_forall in Hle.
    intros v' d' [[= -> ->]|Hin]%elem_of_cons; [done|]. by apply (Hle (v', d')). }
  destruct (Hq v d) as (_ & _ & Hvd); [rewrite Hqueue; by left|].
  constructor; try done.
  - intros v' d' Hin. destruct (Hq v' d' Hin) as (? & ? & ?).
    pose proof (Hhead v' d' Hin). split_and!; [done|done|lia|lia].
  - intros w dw Hw Hdw.
    destruct (decide (dw ≤ k)) as [?|Hgt]; [by apply (Hlevel w dw)|].
    assert (dw = S k) as -> by lia. assert (d = S k) as -> by lia.
    destruct (min_hops_pred _ _ _ _ Hw) as (x & Hx & Hwx).
    apply hops_min_hops in Hx as (dx & Hdx & Hxmin).
    assert (x ∈ visited st) as Hxv by by apply (Hlevel x dx).
    destruct (Hdone x Hxv) as [?|[Hin|Hfin]]; [done| |by apply Hfin].
    apply elem_of_fst_queue in Hin as [d' Hin].
    destruct (Hq x d' Hin) as (_ & Hxmin' & _).
    pose proof (min_hops_fun _ _ _ _ _ Hxmin Hxmin').
    pose proof (Hhead x d' Hin). lia.
  - intros l d0 Hl. pose proof (Hbound l d0 Hl). lia.
Qed.

Lemma iteration_inv st :
  loop_inv g itl c st → queue st ≠ [] →
  ∃ st', iteration g itl st = Ok st'
    ∧ loop_inv g itl c st'
    ∧ measure g c st = S (measure g c st')
    ∧ visited st ⊆ visited st'
    ∧ (∀ x, x ∈ (queue st').*1 →
         x ∈ (tail (queue st)).*1 ∨ x ∉ visited st).
Proof.
  intros (k & HI & Hk) Hne. unfold iteration.
  destruct (queue st) as [|[u k0] rest] eqn:Hqueue; [done|].
  assert (k0 = k) as -> by by eapply Hk.
  pose proof (inv_pop u k rest st HI Hqueue) as Hmid.
  destruct (for_parents_inv u k (get g u []) _ Hmid) as
    (st' & Hrun & HI' & Hps & Hmono & Hq' & Hm); [done|].
  exists st'. split; [done|]. simpl in *. split_and!; [|..|done|done].
  - assert (inv None k st') as HI''.
    { apply (inv_finish u); [done|]. intros p [? ?]%real_parents_spec. auto. }
    destruct (queue st') as [|[v d] rest'] eqn:Hqueue'.
    + exists k. split; [done|]. by rewrite Hqueue'.
    + exists d. split; [by eapply inv_next_level|].
      rewrite Hqueue'. by intros ? ? ? [= _ ->].
  - rewrite Hm. unfold measure. rewrite Hqueue. simpl. lia.
Qed.

(** ** The whole loop *)

Lemma initial_inv : loop_inv g itl c (initial c).
Proof.
  exists 0. split; [|by intros ? ? ? [= _ <-]].
  constructor; simpl.
  - set_solver.
  - unfold universe. set_solver.
  - intros v d [= -> ->]%list_elem_of_singleton.
    split_and!; [set_solver|apply min_hops_start|lia|lia].
  - repeat constructor.
  - apply NoDup_singleton.
  - intros v ->%elem_of_singleton. exists 0. apply min_hops_start.
  - intros w d Hw Hd. assert (d = 0) as -> by lia.
    apply min_hops_0 in Hw as ->. set_solver.
  - intros v ->%elem_of_singleton. right; left. by left.
  - done.
  - intros l d. by rewrite lookup_empty.
  - intros v l ->%elem_of_singleton. done.
  - intros l d. by rewrite lookup_empty.
Qed.

Lemma initial_measure : measure g c (initial c) = size (universe g c).
Proof.
  unfold measure. simpl.
  pose proof (size_difference_fresh (universe g c) ∅ c) as Hsize.
  rewrite difference_empty_L, union_empty_r_L in Hsize.
  rewrite Hsize; [lia| |set_solver]. unfold universe. set_solver.
Qed.

Lemma while_queue_terminates fuel st :
  loop_inv g itl c st → measure g c st ≤ fuel →
  ∃ st', while_queue fuel g itl st = Some (Ok st')
    ∧ loop_inv g itl c st' ∧ queue st' = [].
Proof.
  revert st. induction fuel as [|fuel IH]; intros st HI Hm.
  - destruct (queue st) as [|x q] eqn:Hq.
    + exists st. simpl. by rewrite Hq.
    + unfold measure in Hm. rewrite Hq in Hm. simpl in Hm. lia.
  - destruct (decide (queue st = [])) as [Hq|Hq].
    + exists st. simpl. by rewrite Hq.
    + destruct (iteration_inv st HI Hq) as (st1 & Hrun & HI1 & Hm1 & _).
      destruct (IH st1 HI1) as (st' & Hrun' & ? & ?); [lia|].
      exists st'. simpl. destruct (queue st); [done|]. by rewrite Hrun.
Qed.

Lemma while_queue_mono fuel fuel' st r :
  while_queue fuel g itl st = Some r → fuel ≤ fuel' →
  while_queue fuel' g itl st = Some r.
Proof.
  revert fuel' st. induction fuel as [|fuel IH]; intros fuel' st Hrun Hle.
  - destruct fuel'; simpl in *; destruct (queue st); done.
  - destruct fuel' as [|fuel']; [lia|]. simpl in *.
    destruct (queue st); [done|].
    destruct (iteration g itl st); [|done]. apply IH; [done|lia].
Qed.

Lemma while_queue_state_after fuel st r :
  while_queue fuel g itl st = Some r → state_after fuel g itl st = r.
Proof.
  revert st. induction fuel as [|fuel IH]; intros st; simpl.
  - destruct (queue st); [by intros [= <-]|done].
  - destruct (queue st); [by intros [= <-]|].
    destruct (iteration g itl st) as [st1|e]; simpl; [apply IH|by intros [= <-]].
Qed.

Lemma state_after_inv n st :
  loop_inv g itl c st →
  ∃ st', state_after n g itl st = Ok st' ∧ loop_inv g itl c st'.
Proof.
  revert st. induction n as [|n IH]; intros st HI; simpl.
  - destruct (queue st); eauto.
  - destruct (queue st) eqn:Hq; [by eauto|].
    destruct (iteration_inv st HI) as (st1 & -> & HI1 & _); [by rewrite Hq|].
    simpl. by apply IH.
Qed.

Lemma closed_visits_all st n v :
  loop_inv g itl c st → queue st = [] →
  v ∈ hops (real_parents g) n c → v ∈ visited st.
Proof.
  intros (k & HI & _) Hq. revert v.
  induction n as [|n IH]; intros v.
  - intros ->%hops_0. apply (inv_start _ _ _ _ _ _ HI).
  - intros (u & Hu & Hv)%hops_S. apply IH in Hu.
    destruct (inv_done _ _ _ _ _ _ HI u Hu) as [?|[Hin|Hfin]]; [done| |by auto].
    rewrite Hq in Hin. by apply elem_of_nil in Hin.
Qed.

Lemma dequeued_nodup fuel st :
  loop_inv g itl c st →
  NoDup (dequeued fuel g itl st)
  ∧ ∀ x, x ∈ dequeued fuel g itl st → x ∈ (queue st).*1 ∨ x ∉ visited st.
Proof.
  revert st. induction fuel as [|fuel IH]; intros st HI; simpl.
  { split; [destruct (queue st); constructor|].
    intros x Hx. destruct (queue st); by apply elem_of_nil in Hx. }
  destruct (queue st) as [|[u k] rest] eqn:Hq.
  { split; [constructor|]. intros x Hx. by apply elem_of_nil in Hx. }
  destruct (iteration_inv st HI) as (st1 & -> & HI1 & _ & Hmono & Hq1);
    [by rewrite Hq|].
  rewrite Hq in Hq1. simpl in Hq1.
  destruct (IH st1 HI1) as [Hnd Hin].
  destruct HI as (k' & HI & _).
  pose proof (inv_nodup _ _ _ _ _ _ HI) as Hndq.
  rewrite Hq, fmap_cons in Hndq. apply NoDup_cons in Hndq as [Hu _].
  assert (u ∈ visited st) as Huv.
  { apply (inv_queue_visited None k' st u HI). rewrite Hq. by left. }
  split.
  - apply NoDup_cons. split; [|done]. intros Hux.
    destruct (Hin u Hux) as [Hx|Hx]; [|by apply Hx, Hmono].
    destruct (Hq1 u Hx); done.
  - intros x [->|Hx]%elem_of_cons; [left; by left|].
    destruct (Hin x Hx) as [Hx'|Hx'].
    + destruct (Hq1 x Hx'); [left; by right|by right].
    + right. intros ?. by apply Hx', Hmono.
Qed.

End Traversal.

(** ** The result of the traversal *)

Lemma bfs_run_final c g itl :
  ∃ st, bfs_run (size (universe g c)) c g itl = Some (Ok st)
    ∧ loop_inv g itl c st ∧ queue st = [].
Proof.
  apply while_queue_terminates; [apply initial_inv|].
  by rewrite initial_measure.
Qed.

Lemma get_ancestors_with_depth_spec c g itl :
  ∃ r, get_ancestors_with_depth c g itl = Some (Ok r)
    ∧ (∀ l d, r !! l = Some d →
         ∃ v, v ≠ c ∧ itl !! v = Some l ∧ min_hops (real_parents g) c v d)
    ∧ (∀ v d l, min_hops (real_parents g) c v d → v ≠ c →
         itl !! v = Some l → ∃ d', r !! l = Some d' ∧ d ≤ d').
Proof.
  destruct (bfs_run_final c g itl) as (st & Hrun & HI & Hq).
  exists (relationships st).
  unfold get_ancestors_with_depth, get_ancestors_with_depth_fuel.
  rewrite Hrun. split; [done|].
  pose proof HI as (k & HI' & _). split.
  - intros l d Hl.
    destruct (inv_sound _ _ _ _ _ _ HI' l d Hl) as (v & _ & ? & ? & ?). eauto.
  - intros v d l Hmin Hvc Hl.
    destruct (inv_complete _ _ _ _ _ _ HI' v l) as (d1 & d2 & Hd1 & Hd2 & Hle);
      [|done..|].
    + apply (closed_visits_all g itl c st d); [done..|apply Hmin].
    + exists d1. split; [done|].
      by rewrite (min_hops_fun _ _ _ _ _ Hmin Hd2).
Qed.

Lemma get_ancestors_with_depth_deepest c g itl a l d :
  min_hops (real_parents g) c a d → a ≠ c → itl !! a = Some l →
  ∃ r, get_ancestors_with_depth c g itl = Some (Ok r)
    ∧ (∃ d', r !! l = Some d' ∧ d ≤ d')
    ∧ ((∀ v dv, min_hops (real_parents g) c v dv → v ≠ c →
          itl !! v = Some l → dv ≤ d) → r !! l = Some d).
Proof.
  intros Hmin Hac Hl.
  destruct (get_ancestors_with_depth_spec c g itl) as (r & Hr & Hsound & Hcompl).
  exists r. split; [done|].
  destruct (Hcompl a d l Hmin Hac Hl) as (d' & Hd' & Hle).
  split; [by eauto|]. intros Hdeep.
  destruct (Hsound l d' Hd') as (v & Hvc & Hvl & Hvmin).
  pose proof (Hdeep v d' Hvmin Hvc Hvl).
  rewrite Hd'. f_equal. lia.
Qed.

Lemma get_ancestors_with_depth_fuel_enough fuel c g itl :
  size (universe g c) ≤ fuel →
  get_ancestors_with_depth_fuel fuel c g itl = get_ancestors_with_depth c g itl.
Proof.
  intros Hle. destruct (bfs_run_final c g itl) as (st & Hrun & _).
  unfold get_ancestors_with_depth, get_ancestors_with_depth_fuel.
  rewrite Hrun. unfold bfs_run in *.
  by rewrite (while_queue_mono g itl _ fuel _ _ Hrun Hle).
Qed.

Ltac lookup_cases H :=
  repeat (rewrite lookup_insert in H; case_decide; simplify_eq; try done);
  try (by rewrite lookup_empty in H).

Lemma start_stays_off_queue c g itl n st st' :
  loop_inv g itl c st → c ∉ (queue st).*1 →
  state_after n g itl st = Ok st' → c ∉ (queue st').*1.
Proof.
  revert st. induction n as [|n IH]; intros st HI Hc; simpl.
  - by intros [= <-].
  - destruct (queue st) as [|x rest] eqn:Hq; [intros [= <-]; by rewrite Hq|].
    destruct (iteration_inv g itl c st HI) as (st1 & -> & HI1 & _ & _ & Hq1);
      [by rewrite Hq|].
    simpl. apply IH; [done|]. intros Hin.
    destruct (Hq1 c Hin) as [Htl|Hnv].
    + apply Hc. rewrite Hq in *. simpl in Htl. rewrite fmap_cons. by right.
    + destruct HI as (k & HI & _). apply Hnv, (inv_start _ _ _ _ _ _ HI).
Qed.

Lemma visit_parent_keeps_Thing_out itl d st p st' :
  Thing ∉ visited st → Thing ∉ (queue st).*1 →
  visit_parent itl d st p = Ok st' →
  Thing ∉ visited st' ∧ Thing ∉ (queue st').*1.
Proof.
  intros Hv Hq.
  destruct (decide (p = Thing)) as [->|Hne].
  { rewrite visit_parent_Thing. by intros [= <-]. }
  destruct (decide (p ∈ visited st)) as [Hseen|Hnew].
  { rewrite visit_parent_seen by done. by intros [= <-]. }
  rewrite visit_parent_new by done. intros [= <-]. simpl. split.
  - set_solver.
  - rewrite fmap_app. intros [?|Heq%list_elem_of_singleton]%elem_of_app;
      [done|]. simpl in Heq. by subst p.
Qed.

Lemma no_parents_result c g itl :
  get g c [] = [] → get_ancestors_with_depth c g itl = Some (Ok ∅).
Proof.
  intros Hc. unfold get_ancestors_with_depth, get_ancestors_with_depth_fuel.
  destruct (size (universe g c)) as [|n] eqn:Hsize.
  { apply size_empty_inv in Hsize. unfold universe in Hsize. set_solver. }
  unfold bfs_run. simpl. unfold iteration. simpl. rewrite Hc. simpl.
  by destruct n.
Qed.

(** ** Examples *)

Example diamond_result :
  get_ancestors_with_depth "A" diamond_graph diamond_names
  = Some (Ok (<["B" := 1]> (<["C" := 1]> (<["D" := 2]> ∅)))).
Proof. by vm_compute. Qed.

Example diamond_order :
  dequeued 4 diamond_graph diamond_names (initial "A") = ["A"; "B"; "C"; "D"].
Proof. by vm_compute. Qed.

(** ** The loader *)

Lemma split_nonempty sep s : split sep s ≠ [].
Proof.
  induction s as [|a s IH]; simpl; [done|].
  destruct (Ascii.eqb a sep); [done|]. by destruct (split sep s).
Qed.

Lemma for_each_invariant {S A} (P : S → Prop) (body : S → A → res S) xs :
  (∀ st x st', P st → body st x = Ok st' → P st') →
  ∀ st st', P st → for_each body xs st = Ok st' → P st'.
Proof.
  intros Hbody. induction xs as [|x xs IH]; intros st st' HP; simpl.
  - by intros [= <-].
  - destruct (body st x) as [st1|e] eqn:Hx; simpl; [|done].
    apply IH. by eapply Hbody.
Qed.

Lemma for_each_raise {S A} (body : S → A → res S) xs x :
  x ∈ xs → (∀ st, ∃ e, body st x = Raise e) →
  ∀ st, ∃ e, for_each body xs st = Raise e.
Proof.
  intros Hin Hx. induction xs as [|y xs IH]; [by apply elem_of_nil in Hin|].
  intros st. simpl. apply elem_of_cons in Hin as [<-|Hin].
  - destruct (Hx st) as [e ->]. by exists e.
  - destruct (body st y) as [st1|e]; simpl; [by apply IH|by exists e].
Qed.

Lemma load_row_inv o r o' :
  load_row o r = Ok o' →
  ∃ cid label ps,
    row_class_id r = Ok cid ∧ row_parent_list r = Ok ps
    ∧ id_to_label o' = <[cid := label]> (id_to_label o)
    ∧ label_to_id o' = <[lower label := cid]> (label_to_id o)
    ∧ graph o' =
        <[cid := match ps with
                 | [] => []
                 | _ => (get (graph o) cid [] ++ ps)%list
                 end]> (graph o).
Proof.
  unfold load_row, row_class_id, row_parent_list.
  destruct (getitem r "Class ID") as [[idc|]|]; simpl; try done.
  destruct (getitem r "Preferred Label") as [[lc|]|]; simpl; try done.
  destruct (parents_field r) as [parents|]; simpl; try done.
  destruct (truthy parents) eqn:Hp; intros [= <-];
    exists (strip idc), (strip lc); eexists; (split_and!; [done..|]); simpl.
  - pose proof (split_nonempty "|" parents).
    by destruct (split "|" parents).
  - done.
Qed.

Lemma load_rows_other cid rows o o' :
  for_each load_row rows o = Ok o' →
  (∀ r, r ∈ rows → row_class_id r ≠ Ok cid) →
  graph o' !! cid = graph o !! cid.
Proof.
  revert o. induction rows as [|r rows IH]; intros o; simpl.
  - by intros [= <-].
  - destruct (load_row o r) as [o1|e] eqn:Hr; simpl; [|done].
    intros Hrest Hother.
    rewrite (IH o1 Hrest) by (intros r' Hr'; apply Hother; by right).
    destruct (load_row_inv o r o1 Hr) as (cid' & label & ps & Hid & _ & _ & _ & ->).
    apply lookup_insert_ne. intros ->. by apply (Hother r); [left|].
Qed.

Lemma load_row_labels_resolve o r o' :
  (∀ l i, label_to_id o !! l = Some i → is_Some (id_to_label o !! i)) →
  load_row o r = Ok o' →
  ∀ l i, label_to_id o' !! l = Some i → is_Some (id_to_label o' !! i).
Proof.
  intros Hinv Hr l i.
  destruct (load_row_inv o r o' Hr) as (cid & label & ps & _ & _ & -> & -> & _).
  rewrite lookup_insert. case_decide.
  - intros [= <-]. rewrite lookup_insert_eq. eauto.
  - intros Hl. apply lookup_insert_is_Some'. right. by eapply Hinv.
Qed.

Lemma load_row_raises o r :
  missing r "Class ID" ∨ missing r "Preferred Label" ∨ r !! "Parents" = None →
  ∃ e, load_row o r = Raise e.
Proof.
  unfold load_row, parents_field, getitem, missing.
  intros [[Hm|Hm]|[[Hm|Hm]|Hm]].
  - rewrite Hm. simpl. eauto.
  - rewrite Hm. simpl. eauto.
  - destruct (r !! "Class ID") as [[?|]|]; simpl; eauto.
    rewrite Hm. simpl. eauto.
  - destruct (r !! "Class ID") as [[?|]|]; simpl; eauto.
    rewrite Hm. simpl. eauto.
  - destruct (r !! "Class ID") as [[?|]|]; simpl; eauto.
    destruct (r !! "Preferred Label") as [[?|]|]; simpl; eauto.
    rewrite Hm. simpl. eauto.
Qed.

Example scenario_load : load_ontology scenario_rows = Ok scenario_index.
Proof. by vm_compute. Qed.

(** ** The resolver *)

Lemma find_entity_id_by_id q itl lti :
  is_Some (itl !! strip q) → find_entity_id q itl lti = Ok (Some (strip q)).
Proof.
  intros Hid. unfold find_entity_id.
  by rewrite (proj2 (contains_true itl (strip q)) Hid).
Qed.

Lemma find_entity_id_by_label q itl lti :
  itl !! strip q = None →
  find_entity_id q itl lti = Ok (lti !! lower (strip q)).
Proof.
  intros Hid. unfold find_entity_id.
  rewrite (proj2 (contains_false itl (strip q)) Hid).
  destruct (lti !! lower (strip q)) as [i|] eqn:Hl.
  - rewrite (proj2 (contains_true lti _)) by (rewrite Hl; eauto).
    unfold getitem. by rewrite Hl.
  - by rewrite (proj2 (contains_false lti _)).
Qed.

(** * The claims *)

(** C1, as the code has it.  Let [a] be an ancestor of [c], other than [c],
    whose least number of parent edges from [c], over the paths that do not
    enter the sentinel, is [d], and let [l] be its label.  Then the traversal
    ends with a depth recorded for [l] that is at least [d], and exactly [d]
    when no id the traversal reaches under the same label lies deeper.
    Meeting an id again that is already visited leaves the state as it is,
    so its depth is not written a second time. *)
Theorem C1_first_discovery_depth c g itl a l d :
  min_hops (real_parents g) c a d → a ≠ c → itl !! a = Some l →
  ∃ r, get_ancestors_with_depth c g itl = Some (Ok r)
    ∧ (∃ d', r !! l = Some d' ∧ d ≤ d')
    ∧ ((∀ v dv, min_hops (real_parents g) c v dv → v ≠ c →
          itl !! v = Some l → dv ≤ d) → r !! l = Some d)
    ∧ (∀ k st, a ∈ visited st → visit_parent itl k st a = Ok st).
Proof.
  intros Hmin Hac Hl.
  destruct (get_ancestors_with_depth_deepest c g itl a l d)
    as (r & Hr & Hge & Heq); [done..|].
  exists r. split_and!; [done..|].
  intros k st Hin. by apply visit_parent_seen.
Qed.

(** C1 at the diamond: D, two hops above A, is recorded at depth 2. *)
Lemma C1_first_discovery_depth_witness :
  ∃ r, get_ancestors_with_depth "A" diamond_graph diamond_names = Some (Ok r)
       ∧ r !! "D" = Some 2.
Proof.
  assert (min_hops (real_parents diamond_graph) "A" "D" 2) as Hmin
    by compute_done.
  destruct (C1_first_discovery_depth "A" diamond_graph diamond_names
              "D" "D" 2) as (r & Hr & _ & Hd & _); [exact Hmin|done|done|].
  exists r. split; [exact Hr|]. apply Hd.
  intros v dv Hv _ Hl. unfold diamond_names in Hl. lookup_cases Hl.
  by rewrite (min_hops_fun _ _ _ _ _ Hv Hmin).
Defined.

(** C1 as stated fails twice.  With A and Z both labelled x, A one hop and
    two hops from S, the depth recorded for x is 2.  With A two hops from S
    through the sentinel and three hops around it, the depth recorded is 3. *)
Lemma C1_counterexample :
  (min_hops (listed_parents shared_label_graph) "S" "A" 1
   ∧ "A" ∈ hops (listed_parents shared_label_graph) 2 "S"
   ∧ shared_label_names !! "A" = Some "x"
   ∧ ∃ r, get_ancestors_with_depth "S" shared_label_graph shared_label_names
          = Some (Ok r)
          ∧ r = <["x" := 2]> ∅ ∧ r !! "x" ≠ Some 1)
  ∧ (min_hops (listed_parents detour_graph) "S" "A" 2
     ∧ "A" ∈ hops (listed_parents detour_graph) 3 "S"
     ∧ detour_names !! "A" = Some "a"
     ∧ ∃ r, get_ancestors_with_depth "S" detour_graph detour_names
            = Some (Ok r)
            ∧ r = <["a" := 3]> (<["b" := 1]> (<["c" := 2]> ∅))
            ∧ r !! "a" ≠ Some 2).
Proof.
  split; split_and!; try compute_done; eexists; split_and!;
    try (by vm_compute).
Qed.

(** C2, as the code has it.  A parent equal to the sentinel leaves the state
    as it is: nothing recorded, nothing marked visited, nothing put on the
    queue.  No parent puts the sentinel into the visited set or on the queue.
    When the traversal does not start at the sentinel, the sentinel is in
    neither after any number of turns, and every depth in the result is the
    least number of parent edges along paths that do not enter the
    sentinel, for an id that is not the sentinel. *)
Theorem C2_sentinel_skipped c g itl :
  c ≠ Thing →
  (∀ d st, visit_parent itl d st Thing = Ok st)
  ∧ (∀ d st p st', Thing ∉ visited st → Thing ∉ (queue st).*1 →
       visit_parent itl d st p = Ok st' →
       Thing ∉ visited st' ∧ Thing ∉ (queue st').*1)
  ∧ (∀ n, ∃ st, state_after n g itl (initial c) = Ok st
       ∧ Thing ∉ visited st ∧ Thing ∉ (queue st).*1)
  ∧ (∃ r, get_ancestors_with_depth c g itl = Some (Ok r)
       ∧ ∀ l d, r !! l = Some d →
           ∃ v, v ≠ Thing ∧ itl !! v = Some l
                ∧ min_hops (real_parents g) c v d).
Proof.
  intros Hc. split_and!.
  - intros d st. apply visit_parent_Thing.
  - intros d st p st'. apply visit_parent_keeps_Thing_out.
  - intros n.
    destruct (state_after_inv g itl c n (initial c)) as (st & Hrun & k & HI & _);
      [apply initial_inv|].
    exists st. split; [done|].
    assert (Thing ∉ visited st) as Hv.
    { intros Hin. destruct (inv_reach _ _ _ _ _ _ HI Thing Hin) as [d Hd].
      by destruct (min_hops_real_not_Thing g c Thing d Hd). }
    split; [done|]. intros Hin.
    by apply Hv, (inv_queue_visited g itl c None k st).
  - destruct (get_ancestors_with_depth_spec c g itl) as (r & Hr & Hsound & _).
    exists r. split; [done|]. intros l d Hl.
    destruct (Hsound l d Hl) as (v & Hvc & Hvl & Hmin). exists v.
    split_and!; [|done..].
    destruct (min_hops_real_not_Thing g c v d Hmin); by subst.
Qed.

(** C2 at the detour ontology, started at S. *)
Lemma C2_sentinel_skipped_witness :
  (∀ d st, visit_parent detour_names d st Thing = Ok st)
  ∧ (∀ d st p st', Thing ∉ visited st → Thing ∉ (queue st).*1 →
       visit_parent detour_names d st p = Ok st' →
       Thing ∉ visited st' ∧ Thing ∉ (queue st').*1)
  ∧ (∀ n, ∃ st, state_after n detour_graph detour_names (initial "S") = Ok st
       ∧ Thing ∉ visited st ∧ Thing ∉ (queue st).*1)
  ∧ (∃ r, get_ancestors_with_depth "S" detour_graph detour_names = Some (Ok r)
       ∧ ∀ l d, r !! l = Some d →
           ∃ v, v ≠ Thing ∧ detour_names !! v = Some l
                ∧ min_hops (real_parents detour_graph) "S" v d).
Proof. apply (C2_sentinel_skipped "S" detour_graph detour_names). done. Defined.

(** C2 as stated fails when the traversal starts at the sentinel: the
    sentinel is visited and on the queue from the start, and A, a parent of
    the sentinel that cites it back, is reached through it. *)
Lemma C2_counterexample :
  Thing ∈ listed_parents sentinel_start_graph "A"
  ∧ Thing ∈ visited (initial Thing)
  ∧ Thing ∈ (queue (initial Thing)).*1
  ∧ "A" ∈ listed_parents sentinel_start_graph Thing
  ∧ get_ancestors_with_depth Thing sentinel_start_graph sentinel_start_names
    = Some (Ok (<["a" := 1]> ∅)).
Proof. split_and!; try compute_done; by vm_compute. Qed.

(** C3.  For every graph and start the loop ends: the run with as much fuel
    as the universe has ids returns a state whose queue is empty, more fuel
    gives the same state, the traversal returns a result, and no id is handed
    out by [popleft] twice, so none was put on the queue twice. *)
Theorem C3_terminates c g itl :
  ∃ st r,
    bfs_run (size (universe g c)) c g itl = Some (Ok st)
    ∧ queue st = []
    ∧ get_ancestors_with_depth c g itl = Some (Ok r)
    ∧ (∀ fuel, size (universe g c) ≤ fuel →
         bfs_run fuel c g itl = Some (Ok st))
    ∧ (∀ fuel, NoDup (dequeued fuel g itl (initial c))).
Proof.
  destruct (bfs_run_final c g itl) as (st & Hrun & HI & Hq).
  exists st, (relationships st). split_and!; [done|done| | |].
  - unfold get_ancestors_with_depth, get_ancestors_with_depth_fuel.
    by rewrite Hrun.
  - intros fuel Hle. by apply (while_queue_mono g itl _ fuel _ _ Hrun).
  - intros fuel. apply (dequeued_nodup g itl c), initial_inv.
Qed.

(** C3 at the two-cycle S -> A -> S. *)
Lemma C3_terminates_witness :
  ∃ st r,
    bfs_run 2 "S" cycle_graph cycle_names = Some (Ok st)
    ∧ queue st = []
    ∧ get_ancestors_with_depth "S" cycle_graph cycle_names = Some (Ok r)
    ∧ bfs_run 5 "S" cycle_graph cycle_names = Some (Ok st)
    ∧ NoDup (dequeued 5 cycle_graph cycle_names (initial "S")).
Proof.
  destruct (C3_terminates "S" cycle_graph cycle_names)
    as (st & r & Hrun & Hq & Hr & Hfuel & Hnd).
  exists st, r. split_and!; [exact Hrun|exact Hq|exact Hr| |apply Hnd].
  apply Hfuel. vm_compute. lia.
Defined.

(** C4, as the code has it.  The start is never recorded: a key is in the
    result exactly when it is the label of an id other than the start that
    the traversal reaches, and its depth is that of such an id.  So a key
    that no id other than the start carries as its label is absent, be it
    the start's label or the start's id.  The start is never put on the queue
    again after the first turn, cycle or not. *)
Theorem C4_start_not_recorded c g itl :
  ∃ r, get_ancestors_with_depth c g itl = Some (Ok r)
    ∧ (∀ l d, r !! l = Some d →
         ∃ v, v ≠ c ∧ itl !! v = Some l ∧ min_hops (real_parents g) c v d)
    ∧ (∀ key, is_Some (r !! key) ↔
         ∃ v d, v ≠ c ∧ itl !! v = Some key
                ∧ min_hops (real_parents g) c v d)
    ∧ (∀ key, (∀ v, itl !! v = Some key → v = c) → r !! key = None)
    ∧ (∀ n st, state_after (S n) g itl (initial c) = Ok st →
         c ∉ (queue st).*1).
Proof.
  destruct (get_ancestors_with_depth_spec c g itl) as (r & Hr & Hsound & Hcompl).
  exists r. split_and!; [done|done| | |].
  - intros key. split.
    + intros [d Hd]. destruct (Hsound key d Hd) as (v & ? & ? & ?). eauto.
    + intros (v & d & Hvc & Hvl & Hmin).
      destruct (Hcompl v d key Hmin Hvc Hvl) as (d' & -> & _). eauto.
  - intros key Honly. destruct (r !! key) as [d|] eqn:Hkey; [|done].
    destruct (Hsound key d Hkey) as (v & Hvc & Hvl & _).
    by destruct Hvc; apply Honly.
  - intros n st. simpl.
    destruct (iteration_inv g itl c (initial c)) as
      (st1 & -> & HI1 & _ & _ & Hq1); [apply initial_inv|done|].
    simpl. apply (start_stays_off_queue c g itl n st1 st HI1).
    intros Hin. destruct (Hq1 c Hin) as [Htl|Hnv].
    + by apply elem_of_nil in Htl.
    + apply Hnv. simpl. set_solver.
Qed.

(** C4 at the two-cycle with labels s and a: the label of S, which is
    reached back through A, is no key of the result of S. *)
Lemma C4_start_not_recorded_witness :
  ∃ r, get_ancestors_with_depth "S" cycle_graph cycle_names_distinct
       = Some (Ok r)
    ∧ r !! "s" = None
    ∧ (∀ st, state_after 3 cycle_graph cycle_names_distinct (initial "S")
             = Ok st → "S" ∉ (queue st).*1).
Proof.
  destruct (C4_start_not_recorded "S" cycle_graph cycle_names_distinct)
    as (r & Hr & _ & _ & Hkey & Hq).
  exists r. split_and!; [exact Hr| |exact (Hq 2)].
  apply Hkey. intros v Hv. unfold cycle_names_distinct in Hv. lookup_cases Hv.
Defined.

(** C4 as stated fails when an ancestor carries the label of the start: in
    the two-cycle whose entities S and A are both labelled x, the result of
    S has the key x, the label of S. *)
Lemma C4_counterexample :
  cycle_names !! "S" = Some "x"
  ∧ ∃ r, get_ancestors_with_depth "S" cycle_graph cycle_names = Some (Ok r)
         ∧ r = <["x" := 1]> ∅ ∧ r !! "x" ≠ None.
Proof. split; [done|]. eexists. split_and!; by vm_compute. Qed.

(** C5, as the code has it.  A record whose parents field is not empty
    appends its trimmed tokens to the list the graph already holds for its
    class id (an empty one if there is none); a record whose parents field is
    empty sets the entry to the empty list; no other entry changes.  So for
    a class id that occurs in one record only, the final entry is exactly the
    parent list of that record, and the id is present even with no parent. *)
Theorem C5_graph_entry :
  (∀ o r o', load_row o r = Ok o' →
     ∃ cid ps, row_class_id r = Ok cid ∧ row_parent_list r = Ok ps
       ∧ graph o' !! cid
         = Some (match ps with
                 | [] => []
                 | _ => (get (graph o) cid [] ++ ps)%list
                 end)
       ∧ ∀ j, j ≠ cid → graph o' !! j = graph o !! j)
  ∧ (∀ rows1 r rows2 o cid ps,
       load_ontology (rows1 ++ r :: rows2) = Ok o →
       row_class_id r = Ok cid → row_parent_list r = Ok ps →
       (∀ r', r' ∈ rows1 ++ rows2 → row_class_id r' ≠ Ok cid) →
       graph o !! cid = Some ps).
Proof.
  split.
  - intros o r o' Hr.
    destruct (load_row_inv o r o' Hr) as (cid & label & ps & ? & ? & _ & _ & ->).
    exists cid, ps. split_and!; [done|done|by rewrite lookup_insert_eq|].
    intros j Hj. by rewrite lookup_insert_ne.
  - intros rows1 r rows2 o cid ps Hload Hcid Hps Hother.
    unfold load_ontology in Hload. rewrite for_each_app in Hload.
    destruct (for_each load_row rows1 _) as [o1|] eqn:H1; simpl in Hload;
      [|done].
    destruct (load_row o1 r) as [o2|] eqn:Hr; simpl in Hload; [|done].
    rewrite (load_rows_other cid rows2 o2 o Hload)
      by (intros r' Hr'; apply Hother, elem_of_app; by right).
    destruct (load_row_inv o1 r o2 Hr) as (cid' & label & ps' & ? & ? & _ & _ & ->).
    assert (cid' = cid) as -> by congruence.
    assert (ps' = ps) as -> by congruence.
    rewrite lookup_insert_eq. f_equal.
    assert (graph o1 !! cid = None) as Hnone.
    { rewrite (load_rows_other cid rows1 _ o1 H1); [done|].
      intros r' Hr'. apply Hother, elem_of_app. by left. }
    unfold get. rewrite Hnone. by destruct ps.
Qed.

(** C5 at the scenario: X2 occurs once, with parents X1 and ROOT. *)
Lemma C5_graph_entry_witness :
  (∃ cid ps,
     row_class_id (mk_row (Some "X") (Some "b") (Some "P2")) = Ok cid
     ∧ row_parent_list (mk_row (Some "X") (Some "b") (Some "P2")) = Ok ps
     ∧ cid = "X" ∧ ps = ["P2"])
  ∧ graph scenario_index !! "X2" = Some ["X1"; "ROOT"].
Proof.
  destruct C5_graph_entry as [Hstep Honce]. split.
  - destruct (Hstep (Ontology ∅ ∅ ∅)
                (mk_row (Some "X") (Some "b") (Some "P2"))
                (Ontology (<["X" := "b"]> ∅) (<["b" := "X"]> ∅)
                   (<["X" := ["P2"]]> ∅)))
      as (cid & ps & Hcid & Hps & _); [by vm_compute|].
    exists cid, ps. split_and!; [exact Hcid|exact Hps| |].
    + vm_compute in Hcid. congruence.
    + vm_compute in Hps. congruence.
  - apply (Honce [mk_row (Some "X1") (Some "Disorder") (Some "")]
             (mk_row (Some " X2 ") (Some "Cervix DISORDER") (Some "X1 | ROOT"))
             [mk_row (Some "ROOT") (Some "Thing") (Some "")]).
    + by vm_compute.
    + by vm_compute.
    + by vm_compute.
    + intros r' [->|[->|[]%elem_of_nil]%elem_of_cons]%elem_of_cons;
        by vm_compute.
Defined.

(** C5 as stated fails when a class id occurs in two records with parents:
    the final entry holds the parents of both, not those of the last. *)
Lemma C5_counterexample :
  row_class_id (mk_row (Some "X") (Some "a") (Some "P1")) = Ok "X"
  ∧ row_class_id (mk_row (Some "X") (Some "b") (Some "P2")) = Ok "X"
  ∧ row_parent_list (mk_row (Some "X") (Some "b") (Some "P2")) = Ok ["P2"]
  ∧ ∃ o, load_ontology repeated_id_rows = Ok o
         ∧ graph o !! "X" = Some ["P1"; "P2"]
         ∧ graph o !! "X" ≠ Some ["P2"].
Proof.
  split_and!; try (by vm_compute).
  eexists. split_and!; [by vm_compute|by vm_compute|].
  by vm_compute.
Qed.

(** C6, as the code has it.  A record that lacks the class id or the label,
    or whose parents column is not in the header at all, makes the whole
    load raise, whatever the other records are; nothing is returned.  A
    record that is only too short for the parents column is read as one with
    no parents. *)
Theorem C6_malformed_fails :
  (∀ rows r, r ∈ rows →
     missing r "Class ID" ∨ missing r "Preferred Label"
     ∨ r !! "Parents" = None →
     ∃ e, load_ontology rows = Raise e)
  ∧ (∀ o r, r !! "Parents" = Some None →
       load_row o r = load_row o (<["Parents" := Some ""]> r)).
Proof.
  split.
  - intros rows r Hin Hbad. apply (for_each_raise load_row rows r Hin).
    intros o. by apply load_row_raises.
  - intros o r Hp. unfold load_row, parents_field, getitem.
    rewrite (lookup_insert_ne _ "Parents" "Class ID") by done.
    rewrite (lookup_insert_ne _ "Parents" "Preferred Label") by done.
    rewrite lookup_insert_eq, Hp. done.
Qed.

(** C6 at a load whose second record has no label. *)
Lemma C6_malformed_fails_witness :
  (∃ e, load_ontology no_label_rows = Raise e)
  ∧ load_row (Ontology ∅ ∅ ∅) (mk_row (Some "X1") (Some "Disorder") None)
    = load_row (Ontology ∅ ∅ ∅)
        (<["Parents" := Some ""]> (mk_row (Some "X1") (Some "Disorder") None)).
Proof.
  destruct C6_malformed_fails as [Hfail Hshort]. split.
  - apply (Hfail no_label_rows (mk_row (Some "X2") None None)).
    + right. left.
    + right. left. right. reflexivity.
  - apply Hshort. reflexivity.
Defined.

(** C6 as stated fails for a record that lacks the parents field because its
    line is too short: the load succeeds and the class has no parent. *)
Lemma C6_counterexample :
  missing (mk_row (Some "X1") (Some "Disorder") None) "Parents"
  ∧ load_ontology short_rows
    = Ok (Ontology (<["X1" := "Disorder"]> ∅) (<["disorder" := "X1"]> ∅)
            (<["X1" := []]> ∅)).
Proof. split; [by right|by vm_compute]. Qed.

(** C7.  The resolver trims the query.  If the trimmed query is a key of
    [id_to_label] it is returned as it is, whatever [label_to_id] holds.
    Otherwise the result is what [label_to_id] holds for the lowercased
    trimmed query: that id, or [None] when there is none.  It never raises,
    and queries that are no ids and differ only in case resolve alike. *)
Theorem C7_find_entity_id q itl lti :
  (is_Some (itl !! strip q) → find_entity_id q itl lti = Ok (Some (strip q)))
  ∧ (itl !! strip q = None → ∀ i, lti !! lower (strip q) = Some i →
       find_entity_id q itl lti = Ok (Some i))
  ∧ (itl !! strip q = None → lti !! lower (strip q) = None →
       find_entity_id q itl lti = Ok None)
  ∧ (∃ answer, find_entity_id q itl lti = Ok answer)
  ∧ (∀ q', itl !! strip q = None → itl !! strip q' = None →
       lower (strip q) = lower (strip q') →
       find_entity_id q itl lti = find_entity_id q' itl lti).
Proof.
  split_and!.
  - apply find_entity_id_by_id.
  - intros Hid i Hl. by rewrite find_entity_id_by_label, Hl.
  - intros Hid Hl. by rewrite find_entity_id_by_label, Hl.
  - destruct (itl !! strip q) eqn:Hid.
    + rewrite find_entity_id_by_id by (rewrite Hid; eauto). eauto.
    + rewrite find_entity_id_by_label by done. eauto.
  - intros q' Hid Hid' Hlow. rewrite !find_entity_id_by_label by done.
    by rewrite Hlow.
Qed.

(** C7 at the scenario: an id with blanks around it, a label in another
    case, a label that is also tried as an id first, and an unknown name. *)
Lemma C7_find_entity_id_witness :
  find_entity_id " X2 " (id_to_label scenario_index)
    (<["x2" := "X1"]> (label_to_id scenario_index)) = Ok (Some "X2")
  ∧ find_entity_id "CERVIX disorder" (id_to_label scenario_index)
      (label_to_id scenario_index) = Ok (Some "X2")
  ∧ find_entity_id "nonexistent" (id_to_label scenario_index)
      (label_to_id scenario_index) = Ok None
  ∧ find_entity_id "x2" (id_to_label scenario_index)
      (label_to_id scenario_index) = Ok None.
Proof.
  split_and!.
  - destruct (C7_find_entity_id " X2 " (id_to_label scenario_index)
                (<["x2" := "X1"]> (label_to_id scenario_index)))
      as (Hid & _).
    apply Hid. vm_compute. by eexists.
  - destruct (C7_find_entity_id "CERVIX disorder" (id_to_label scenario_index)
                (label_to_id scenario_index)) as (_ & Hlabel & _).
    apply Hlabel; by vm_compute.
  - destruct (C7_find_entity_id "nonexistent" (id_to_label scenario_index)
                (label_to_id scenario_index)) as (_ & _ & Hnone & _).
    apply Hnone; by vm_compute.
  - destruct (C7_find_entity_id "x2" (id_to_label scenario_index)
                (label_to_id scenario_index)) as (_ & _ & Hnone & _).
    apply Hnone; by vm_compute.
Defined.

(** C8, as the code has it.  A parent met for the first time that has no
    label leaves the recorded depths as they are, and is marked visited and
    put on the queue one level deeper.  Its parents are then traversed.  Let
    [u] be an unlabelled id the traversal reaches, and [a] a labelled id,
    other than the start, any number of parent edges beyond [u] along a path
    that does not enter the sentinel.  Then the label of [a] is a key of the
    result, at a depth that is at least the depth of [a], and exactly that
    depth when no id the traversal reaches under the same label lies deeper;
    and no key of the result comes from [u]. *)
Theorem C8_unlabelled_traversed c g itl :
  (∀ d st p, p ≠ Thing → p ∉ visited st → itl !! p = None →
     visit_parent itl d st p
     = Ok (BfsState (relationships st) (queue st ++ [(p, d + 1)])
             ({[p]} ∪ visited st)))
  ∧ (∀ u du n a l,
       min_hops (real_parents g) c u du → itl !! u = None →
       a ∈ hops (real_parents g) n u → a ≠ c → itl !! a = Some l →
       ∃ r da, get_ancestors_with_depth c g itl = Some (Ok r)
         ∧ min_hops (real_parents g) c a da ∧ da ≤ du + n
         ∧ (∃ d', r !! l = Some d' ∧ da ≤ d')
         ∧ ((∀ v dv, min_hops (real_parents g) c v dv → v ≠ c →
               itl !! v = Some l → dv ≤ da) → r !! l = Some da)
         ∧ ∀ l' d', r !! l' = Some d' →
             ∃ v, v ≠ u ∧ itl !! v = Some l'
                  ∧ min_hops (real_parents g) c v d').
Proof.
  split.
  - intros d st p Hne Hnew Hl. rewrite visit_parent_new by done. by rewrite Hl.
  - intros u du n a l [Hu _] Hul Ha Hac Hl.
    pose proof (hops_add _ _ _ _ _ _ Hu Ha) as Hin.
    apply hops_min_hops in Hin as (da & Hda & Hmin).
    destruct (get_ancestors_with_depth_deepest c g itl a l da)
      as (r & Hr & Hge & Heq); [done..|].
    destruct (get_ancestors_with_depth_spec c g itl) as (r' & Hr' & Hsound & _).
    assert (r' = r) as -> by congruence.
    exists r, da. split_and!; [done|done|lia|done|done|].
    intros l' d' Hl'. destruct (Hsound l' d' Hl') as (v & _ & Hvl & Hvmin).
    exists v. split_and!; [|done..]. intros ->. congruence.
Qed.

(** C8 at S -> U -> A -> B with U unlabelled and A, B labelled a, b: B, two
    parent edges beyond U, is recorded at its depth 3. *)
Lemma C8_unlabelled_traversed_witness :
  visit_parent unlabelled_names_distinct 0 (initial "S") "U"
  = Ok (BfsState ∅ [("S", 0); ("U", 1)] ({["U"]} ∪ {["S"]}))
  ∧ ∃ r, get_ancestors_with_depth "S" unlabelled_graph
           unlabelled_names_distinct = Some (Ok r)
      ∧ r !! "b" = Some 3.
Proof.
  assert (min_hops (real_parents unlabelled_graph) "S" "B" 3) as Hmin
    by compute_done.
  destruct (C8_unlabelled_traversed "S" unlabelled_graph
              unlabelled_names_distinct) as [Hstep Hbeyond].
  split.
  - apply (Hstep 0 (initial "S") "U"); [done| |done].
    simpl. by intros ?%elem_of_singleton.
  - destruct (Hbeyond "U" 1 2 "B" "b")
      as (r & da & Hr & Hda & _ & _ & Heq & _);
      [compute_done|done|compute_done|done|done|].
    exists r. split; [exact Hr|].
    rewrite (min_hops_fun _ _ _ _ _ Hmin Hda). apply Heq.
    intros v dv Hv _ Hl. unfold unlabelled_names_distinct in Hl.
    lookup_cases Hl. by rewrite (min_hops_fun _ _ _ _ _ Hv Hda).
Defined.

(** C8 as stated fails three times.  With U unlabelled, A above U and B
    above A both labelled x, A is two hops from S but the depth recorded for
    x is 3.  With U unlabelled and citing the start S back, S is a labelled
    ancestor beyond U and the result is empty.  With U unlabelled and citing
    the sentinel, which has a label, the result is empty as well. *)
Lemma C8_counterexample :
  (unlabelled_names !! "U" = None
   ∧ "A" ∈ listed_parents unlabelled_graph "U"
   ∧ unlabelled_names !! "A" = Some "x"
   ∧ min_hops (listed_parents unlabelled_graph) "S" "A" 2
   ∧ ∃ r, get_ancestors_with_depth "S" unlabelled_graph unlabelled_names
          = Some (Ok r)
          ∧ r = <["x" := 3]> ∅ ∧ r !! "x" ≠ Some 2)
  ∧ (back_edge_names !! "U" = None
     ∧ "S" ∈ listed_parents back_edge_graph "U"
     ∧ back_edge_names !! "S" = Some "s"
     ∧ ∃ r, get_ancestors_with_depth "S" back_edge_graph back_edge_names
            = Some (Ok r)
            ∧ r = ∅ ∧ r !! "s" = None)
  ∧ (sentinel_parent_names !! "U" = None
     ∧ Thing ∈ listed_parents sentinel_parent_graph "U"
     ∧ sentinel_parent_names !! Thing = Some "Thing"
     ∧ ∃ r, get_ancestors_with_depth "S" sentinel_parent_graph
              sentinel_parent_names = Some (Ok r)
            ∧ r = ∅ ∧ r !! "Thing" = None).
Proof.
  split_and!; try compute_done; try done;
    eexists; split_and!; by vm_compute.
Qed.

(** C9.  The traversal never raises and never runs out of turns: for every
    start, graph and label map it returns a mapping, with any fuel from the
    size of the universe on; when the start has no parent entry, or an empty
    parent list, the mapping is empty. *)
Theorem C9_never_fails c g itl :
  (∃ r, get_ancestors_with_depth c g itl = Some (Ok r)
     ∧ ∀ fuel, size (universe g c) ≤ fuel →
         get_ancestors_with_depth_fuel fuel c g itl = Some (Ok r))
  ∧ (g !! c = None ∨ g !! c = Some [] →
     get_ancestors_with_depth c g itl = Some (Ok ∅)).
Proof.
  split.
  - destruct (get_ancestors_with_depth_spec c g itl) as (r & Hr & _).
    exists r. split; [done|]. intros fuel Hle.
    by rewrite get_ancestors_with_depth_fuel_enough.
  - intros Hc. apply no_parents_result. unfold get. by destruct Hc as [->| ->].
Qed.

(** C9 at D, the top of the diamond, which has no parent entry. *)
Lemma C9_never_fails_witness :
  (∃ r, get_ancestors_with_depth "D" diamond_graph diamond_names = Some (Ok r)
     ∧ get_ancestors_with_depth_fuel 9 "D" diamond_graph diamond_names
       = Some (Ok r))
  ∧ get_ancestors_with_depth "D" diamond_graph diamond_names = Some (Ok ∅).
Proof.
  destruct (C9_never_fails "D" diamond_graph diamond_names)
    as [(r & Hr & Hfuel) Hempty].
  split.
  - exists r. split; [exact Hr|]. apply Hfuel. vm_compute. lia.
  - apply Hempty. left. reflexivity.
Defined.

(** C10.  After a load that returns, every id stored in [label_to_id] is a
    key of [id_to_label]; so whatever id the resolver returns on the loaded
    maps, by the id branch or the label branch, has a label. *)
Theorem C10_labels_resolve rows o :
  load_ontology rows = Ok o →
  (∀ l i, label_to_id o !! l = Some i → is_Some (id_to_label o !! i))
  ∧ (∀ q i, find_entity_id q (id_to_label o) (label_to_id o) = Ok (Some i) →
       is_Some (id_to_label o !! i)).
Proof.
  intros Hload.
  assert (∀ l i, label_to_id o !! l = Some i → is_Some (id_to_label o !! i))
    as Hinv.
  { revert Hload. unfold load_ontology.
    apply (for_each_invariant
             (λ o, ∀ l i, label_to_id o !! l = Some i →
                          is_Some (id_to_label o !! i))).
    - intros o1 r o2. apply load_row_labels_resolve.
    - intros l i. simpl. by rewrite lookup_empty. }
  split; [done|]. intros q i.
  destruct (id_to_label o !! strip q) eqn:Hid.
  - rewrite find_entity_id_by_id by (rewrite Hid; eauto).
    intros [= <-]. rewrite Hid. eauto.
  - rewrite find_entity_id_by_label by done. intros [= Hl]. by eapply Hinv.
Qed.

(** C10 at the scenario. *)
Lemma C10_labels_resolve_witness :
  (∀ l i, label_to_id scenario_index !! l = Some i →
          is_Some (id_to_label scenario_index !! i))
  ∧ (∀ q i, find_entity_id q (id_to_label scenario_index)
              (label_to_id scenario_index) = Ok (Some i) →
       is_Some (id_to_label scenario_index !! i)).
Proof. apply (C10_labels_resolve scenario_rows scenario_index). by vm_compute. Defined.

(** * Further properties *)

(** ** Strings *)

Lemma lower_char_idemp a : lower_char (lower_char a) = lower_char a.
Proof. destruct a as [[] [] [] [] [] [] [] []]; reflexivity. Qed.

Lemma lower_idemp s : lower (lower s) = lower s.
Proof.
  induction s as [|a s IH]; simpl; [done|]. by rewrite lower_char_idemp, IH.
Qed.

Lemma lstrip_no_leading_space s :
  match lstrip s with String a _ => isspace a = false | EmptyString => True end.
Proof.
  induction s as [|a s IH]; simpl; [done|].
  destruct (isspace a) eqn:Ha; [done|]. by rewrite Ha.
Qed.

Lemma lstrip_id s :
  match s with String a _ => isspace a = false | EmptyString => True end →
  lstrip s = s.
Proof. destruct s as [|a s]; simpl; [done|]. by intros ->. Qed.

Lemma rstrip_keeps_head s :
  match s with String a _ => isspace a = false | EmptyString => True end →
  match rstrip s with String a _ => isspace a = false | EmptyString => True end.
Proof.
  destruct s as [|a s]; simpl; [done|]. intros Ha.
  destruct (rstrip s); simpl; by rewrite ?Ha.
Qed.

Lemma rstrip_idemp s : rstrip (rstrip s) = rstrip s.
Proof.
  induction s as [|a s IH]; simpl; [done|].
  destruct (rstrip s) as [|b t] eqn:Hs.
  - destruct (isspace a) eqn:Ha; simpl; [done|]. by rewrite Ha.
  - change (rstrip (String a (String b t))) with
      (match rstrip (String b t) with
       | EmptyString => if isspace a then EmptyString else String a EmptyString
       | t' => String a t'
       end).
    by rewrite IH.
Qed.

Lemma strip_idemp s : strip (strip s) = strip s.
Proof.
  unfold strip. rewrite (lstrip_id (rstrip (lstrip s))).
  - apply rstrip_idemp.
  - apply rstrip_keeps_head, lstrip_no_leading_space.
Qed.

(** ** Invariants of the row loop *)

Lemma load_ontology_invariant (P : ontology → Prop) rows o :
  P (Ontology ∅ ∅ ∅) →
  (∀ o1 r o2, P o1 → load_row o1 r = Ok o2 → P o2) →
  load_ontology rows = Ok o → P o.
Proof.
  intros Hempty Hstep. unfold load_ontology.
  by apply (for_each_invariant P load_row rows).
Qed.

Lemma load_row_cells o r o' :
  load_row o r = Ok o' →
  ∃ idc lc,
    r !! "Class ID" = Some (Some idc) ∧ r !! "Preferred Label" = Some (Some lc)
    ∧ is_Some (r !! "Parents")
    ∧ id_to_label o' = <[strip idc := strip lc]> (id_to_label o)
    ∧ label_to_id o' = <[lower (strip lc) := strip idc]> (label_to_id o)
    ∧ dom (graph o') = {[strip idc]} ∪ dom (graph o).
Proof.
  unfold load_row, parents_field, getitem.
  destruct (r !! "Class ID") as [[idc|]|]; simpl; try done.
  destruct (r !! "Preferred Label") as [[lc|]|]; simpl; try done.
  destruct (r !! "Parents") as [cell|]; simpl; try done.
  intros Hr. exists idc, lc. split_and!; [done|done|by eauto|..].
  - destruct cell as [s|]; [destruct (truthy s)|]; simpl in Hr;
      repeat case_match; by simplify_eq.
  - destruct cell as [s|]; [destruct (truthy s)|]; simpl in Hr;
      repeat case_match; by simplify_eq.
  - destruct cell as [s|]; [destruct (truthy s)|]; simpl in Hr;
      repeat case_match; simplify_eq; simpl; by rewrite dom_insert_L.
Qed.

Lemma load_row_not_fatal o r : ¬ fatal r → ∃ o', load_row o r = Ok o'.
Proof.
  unfold fatal, missing, load_row, parents_field, getitem. intros Hok.
  destruct (r !! "Class ID") as [[idc|]|]; [|tauto..].
  destruct (r !! "Preferred Label") as [[lc|]|]; [|tauto..].
  destruct (r !! "Parents") as [cell|]; [|tauto]. simpl.
  destruct cell as [s|]; [destruct (truthy s)|]; simpl;
    repeat case_match; eauto.
Qed.

Lemma load_rows_dom_mono rows o o' :
  for_each load_row rows o = Ok o' →
  dom (id_to_label o) ⊆ dom (id_to_label o').
Proof.
  revert o. induction rows as [|r rows IH]; intros o; simpl.
  - by intros [= <-].
  - destruct (load_row o r) as [o1|] eqn:Hr; simpl; [|done]. intros Hrest.
    apply IH in Hrest.
    destruct (load_row_cells o r o1 Hr) as (idc & lc & _ & _ & _ & Hitl & _).
    rewrite Hitl, dom_insert_L in Hrest. set_solver.
Qed.

Lemma row_class_id_cell r idc :
  r !! "Class ID" = Some (Some idc) → row_class_id r = Ok (strip idc).
Proof. intros Hr. unfold row_class_id, getitem. by rewrite Hr. Qed.

Lemma row_label_cell r lc :
  r !! "Preferred Label" = Some (Some lc) → row_label r = Ok (strip lc).
Proof. intros Hr. unfold row_label, getitem. by rewrite Hr. Qed.

Lemma load_rows_label_kept cid rows o o' :
  for_each load_row rows o = Ok o' →
  (∀ r, r ∈ rows → row_class_id r ≠ Ok cid) →
  id_to_label o' !! cid = id_to_label o !! cid.
Proof.
  revert o. induction rows as [|r rows IH]; intros o; simpl.
  - by intros [= <-].
  - destruct (load_row o r) as [o1|] eqn:Hr; simpl; [|done].
    intros Hrest Hother.
    rewrite (IH o1 Hrest) by (intros r' Hr'; apply Hother; by right).
    destruct (load_row_cells o r o1 Hr) as (idc & lc & Hid & _ & _ & -> & _).
    apply lookup_insert_ne. intros Heq.
    apply (Hother r); [by left|]. by rewrite (row_class_id_cell r idc), Heq.
Qed.

Lemma load_rows_key_kept k rows o o' :
  for_each load_row rows o = Ok o' →
  (∀ r l, r ∈ rows → row_label r = Ok l → lower l ≠ k) →
  label_to_id o' !! k = label_to_id o !! k.
Proof.
  revert o. induction rows as [|r rows IH]; intros o; simpl.
  - by intros [= <-].
  - destruct (load_row o r) as [o1|] eqn:Hr; simpl; [|done].
    intros Hrest Hother.
    rewrite (IH o1 Hrest) by (intros r' l Hr'; apply Hother; by right).
    destruct (load_row_cells o r o1 Hr) as (idc & lc & _ & Hlc & _ & _ & -> & _).
    apply lookup_insert_ne.
    apply (Hother r (strip lc)); [by left|by apply row_label_cell].
Qed.

Lemma load_normalised rows o :
  load_ontology rows = Ok o →
  (∀ i l, id_to_label o !! i = Some l →
     strip i = i ∧ strip l = l ∧ is_Some (label_to_id o !! lower l))
  ∧ (∀ k j, label_to_id o !! k = Some j →
       lower k = k ∧ strip j = j ∧ is_Some (id_to_label o !! j)).
Proof.
  apply (load_ontology_invariant
    (λ o, (∀ i l, id_to_label o !! i = Some l →
             strip i = i ∧ strip l = l ∧ is_Some (label_to_id o !! lower l))
          ∧ (∀ k j, label_to_id o !! k = Some j →
               lower k = k ∧ strip j = j ∧ is_Some (id_to_label o !! j)))).
  - simpl. split; intros ? ?; by rewrite lookup_empty.
  - intros o1 r o2 [Hitl Hlti] Hr.
    destruct (load_row_cells o1 r o2 Hr) as (idc & lc & _ & _ & _ & -> & -> & _).
    split.
    + intros i l. rewrite lookup_insert. case_decide as Hi.
      * intros [= <-]. subst i. rewrite !strip_idemp, lookup_insert_eq. eauto.
      * intros Hl. destruct (Hitl i l Hl) as (? & ? & ?).
        split_and!; [done..|]. apply lookup_insert_is_Some'. by right.
    + intros k j. rewrite lookup_insert. case_decide as Hk.
      * intros [= <-]. subst k.
        rewrite lower_idemp, strip_idemp, lookup_insert_eq. eauto.
      * intros Hj. destruct (Hlti k j Hj) as (? & ? & ?).
        split_and!; [done..|]. apply lookup_insert_is_Some'. by right.
Qed.

(** ** More about the loader *)

(** X1.  After a load that returns, the graph has an entry for exactly the
    class ids that have a label: every entity has a parent list, possibly
    empty, and no other id has one. *)
Theorem X1_graph_keys_are_entities rows o :
  load_ontology rows = Ok o →
  dom (graph o) = dom (id_to_label o)
  ∧ ∀ i, is_Some (id_to_label o !! i) → ∃ ps, graph o !! i = Some ps.
Proof.
  intros Hload.
  assert (dom (graph o) = dom (id_to_label o)) as Hdom.
  { revert Hload. apply (load_ontology_invariant
      (λ o, dom (graph o) = dom (id_to_label o))); [done|].
    intros o1 r o2 Hdom Hr.
    destruct (load_row_cells o1 r o2 Hr) as (idc & lc & _ & _ & _ & -> & _ & ->).
    by rewrite dom_insert_L, Hdom. }
  split; [done|]. intros i Hi.
  apply elem_of_dom in Hi. rewrite <- Hdom in Hi. by apply elem_of_dom in Hi.
Qed.

(** X1 at the scenario: ROOT, a class with no parents, has an entry. *)
Lemma X1_graph_keys_are_entities_witness :
  dom (graph scenario_index) = dom (id_to_label scenario_index)
  ∧ ∃ ps, graph scenario_index !! "ROOT" = Some ps.
Proof.
  destruct (X1_graph_keys_are_entities scenario_rows scenario_index)
    as [Hdom Hentry]; [by vm_compute|].
  split; [exact Hdom|]. apply Hentry. vm_compute. by eexists.
Defined.

(** X2.  After a load that returns, what the maps hold is normalised: class
    ids and labels are trimmed, the keys of [label_to_id] are lowercase, and
    the lowercased label of every entity is a key of [label_to_id]. *)
Theorem X2_stored_names_normalised rows o :
  load_ontology rows = Ok o →
  (∀ i l, id_to_label o !! i = Some l →
     strip i = i ∧ strip l = l ∧ is_Some (label_to_id o !! lower l))
  ∧ (∀ k j, label_to_id o !! k = Some j → lower k = k ∧ strip j = j).
Proof.
  intros Hload. destruct (load_normalised rows o Hload) as [Hitl Hlti].
  split; [done|]. intros k j Hk. destruct (Hlti k j Hk) as (? & ? & _). done.
Qed.

(** X2 at the scenario: the id read from the cell [" X2 "] and its label. *)
Lemma X2_stored_names_normalised_witness :
  (strip "X2" = "X2" ∧ strip "Cervix DISORDER" = "Cervix DISORDER"
   ∧ is_Some (label_to_id scenario_index !! lower "Cervix DISORDER"))
  ∧ (lower "cervix disorder" = "cervix disorder" ∧ strip "X2" = "X2").
Proof.
  destruct (X2_stored_names_normalised scenario_rows scenario_index)
    as [Hitl Hlti]; [by vm_compute|].
  split.
  - apply (Hitl "X2" "Cervix DISORDER"). by vm_compute.
  - apply (Hlti "cervix disorder" "X2"). by vm_compute.
Defined.

Lemma load_then_resolve rows o :
  load_ontology rows = Ok o →
  (∀ i, is_Some (id_to_label o !! i) →
     find_entity_id i (id_to_label o) (label_to_id o) = Ok (Some i))
  ∧ (∀ i l, id_to_label o !! i = Some l →
       ∃ j, find_entity_id l (id_to_label o) (label_to_id o) = Ok (Some j)
            ∧ is_Some (id_to_label o !! j)).
Proof.
  intros Hload. destruct (load_normalised rows o Hload) as [Hitl Hlti]. split.
  - intros i [l Hl]. destruct (Hitl i l Hl) as (Hi & _).
    rewrite find_entity_id_by_id; rewrite Hi; eauto.
  - intros i l Hl. destruct (Hitl i l Hl) as (_ & Hstrip & [j Hj]).
    destruct (id_to_label o !! l) as [l'|] eqn:Hid.
    + exists l. rewrite find_entity_id_by_id; rewrite Hstrip, ?Hid; eauto.
    + exists j. rewrite find_entity_id_by_label by by rewrite Hstrip.
      rewrite Hstrip, Hj. split; [done|]. by destruct (Hlti _ _ Hj) as (_ & _ & ?).
Qed.

(** X3.  Load, then resolve: on the maps of a load that returns, every class
    id resolves to itself, and every label resolves to an entity; neither is
    ever reported as not found.  The class id cell of any record, as the
    source has it with its blanks, resolves to the trimmed class id. *)
Theorem X3_loaded_names_resolve rows o :
  load_ontology rows = Ok o →
  (∀ i, is_Some (id_to_label o !! i) →
     find_entity_id i (id_to_label o) (label_to_id o) = Ok (Some i))
  ∧ (∀ i l, id_to_label o !! i = Some l →
       ∃ j, find_entity_id l (id_to_label o) (label_to_id o) = Ok (Some j)
            ∧ is_Some (id_to_label o !! j))
  ∧ (∀ r cell, r ∈ rows → r !! "Class ID" = Some (Some cell) →
       find_entity_id cell (id_to_label o) (label_to_id o)
       = Ok (Some (strip cell))).
Proof.
  intros Hload. destruct (load_then_resolve rows o Hload) as [Hid Hlabel].
  split_and!; [done|done|].
  intros r cell (rows1 & rows2 & ->)%list_elem_of_split Hcell.
  apply find_entity_id_by_id, elem_of_dom.
  unfold load_ontology in Hload. rewrite for_each_app in Hload.
  destruct (for_each load_row rows1 _) as [o1|]; simpl in Hload; [|done].
  destruct (load_row o1 r) as [o2|] eqn:Hr; simpl in Hload; [|done].
  apply (load_rows_dom_mono rows2 o2 o Hload).
  destruct (load_row_cells o1 r o2 Hr) as (idc & lc & Hidc & _ & _ & -> & _).
  rewrite dom_insert_L. assert (idc = cell) as -> by congruence. set_solver.
Qed.

(** X3 at the scenario. *)
Lemma X3_loaded_names_resolve_witness :
  find_entity_id "X2" (id_to_label scenario_index)
    (label_to_id scenario_index) = Ok (Some "X2")
  ∧ (∃ j, find_entity_id "Cervix DISORDER" (id_to_label scenario_index)
            (label_to_id scenario_index) = Ok (Some j)
          ∧ is_Some (id_to_label scenario_index !! j))
  ∧ find_entity_id " X2 " (id_to_label scenario_index)
      (label_to_id scenario_index) = Ok (Some (strip " X2 ")).
Proof.
  destruct (X3_loaded_names_resolve scenario_rows scenario_index)
    as (Hid & Hlabel & Hcell); [by vm_compute|].
  split_and!.
  - apply Hid. vm_compute. by eexists.
  - apply (Hlabel "X2"). by vm_compute.
  - apply (Hcell (mk_row (Some " X2 ") (Some "Cervix DISORDER")
                    (Some "X1 | ROOT"))); [compute_done|done].
Defined.

(** X4.  The last record wins.  The label of a class id is the one of the
    last record with that id, and a lowercased label leads to the class id
    of the last record with that label up to case. *)
Theorem X4_last_record_wins rows1 r rows2 o cid l :
  load_ontology (rows1 ++ r :: rows2) = Ok o →
  row_class_id r = Ok cid → row_label r = Ok l →
  ((∀ r', r' ∈ rows2 → row_class_id r' ≠ Ok cid) →
     id_to_label o !! cid = Some l)
  ∧ ((∀ r' l', r' ∈ rows2 → row_label r' = Ok l' → lower l' ≠ lower l) →
       label_to_id o !! lower l = Some cid).
Proof.
  intros Hload Hcid Hl. unfold load_ontology in Hload.
  rewrite for_each_app in Hload.
  destruct (for_each load_row rows1 _) as [o1|]; simpl in Hload; [|done].
  destruct (load_row o1 r) as [o2|] eqn:Hr; simpl in Hload; [|done].
  destruct (load_row_cells o1 r o2 Hr) as (idc & lc & Hidc & Hlc & _ & Hitl & Hlti & _).
  rewrite (row_class_id_cell r idc Hidc) in Hcid.
  rewrite (row_label_cell r lc Hlc) in Hl. simplify_eq. split.
  - intros Hother. rewrite (load_rows_label_kept _ rows2 o2 o Hload Hother).
    by rewrite Hitl, lookup_insert_eq.
  - intros Hother. rewrite (load_rows_key_kept _ rows2 o2 o Hload Hother).
    by rewrite Hlti, lookup_insert_eq.
Qed.

(** X4 at the two records of class X: the second label replaces the first,
    and the first label still leads to X. *)
Lemma X4_last_record_wins_witness :
  ∃ o, load_ontology repeated_id_rows = Ok o
    ∧ id_to_label o !! "X" = Some "b"
    ∧ label_to_id o !! "a" = Some "X".
Proof.
  destruct (load_ontology repeated_id_rows) as [o|] eqn:Hload;
    [|by vm_compute in Hload].
  exists o. split; [done|]. split.
  - apply (X4_last_record_wins
             [mk_row (Some "X") (Some "a") (Some "P1")]
             (mk_row (Some "X") (Some "b") (Some "P2")) [] o "X" "b");
      [exact Hload|by vm_compute|by vm_compute|].
    intros r' Hr'. by apply elem_of_nil in Hr'.
  - apply (X4_last_record_wins []
             (mk_row (Some "X") (Some "a") (Some "P1"))
             [mk_row (Some "X") (Some "b") (Some "P2")] o "X" "a");
      [exact Hload|by vm_compute|by vm_compute|].
    intros r' l' ->%list_elem_of_singleton. vm_compute. by intros [= <-].
Defined.

Lemma load_distinct_ids rows o :
  load_ontology rows = Ok o → NoDup (row_class_id <$> rows) →
  (∀ k j, label_to_id o !! k = Some j →
     ∃ l, id_to_label o !! j = Some l ∧ lower l = k)
  ∧ (∀ i, is_Some (id_to_label o !! i) → Ok i ∈ row_class_id <$> rows)
  ∧ size (id_to_label o) = length rows.
Proof.
  revert o. induction rows as [|r rows IH] using rev_ind; intros o.
  { intros [= <-] _. simpl. split_and!.
    - intros ? ?. by rewrite lookup_empty.
    - intros i [l Hl]. by rewrite lookup_empty in Hl.
    - by rewrite map_size_empty. }
  unfold load_ontology. rewrite for_each_app, fmap_app, length_app. simpl.
  destruct (for_each load_row rows _) as [o1|] eqn:Hrows; simpl; [|done].
  destruct (load_row o1 r) as [o2|] eqn:Hr; simpl; [|done].
  intros [= <-] (Hnd & Hfresh & _)%NoDup_app.
  destruct (IH o1 Hrows Hnd) as (Hcons & Hids & Hsize).
  destruct (load_row_cells o1 r o2 Hr) as (idc & lc & Hidc & _ & _ & -> & -> & _).
  rewrite (row_class_id_cell r idc Hidc) in Hfresh.
  assert (id_to_label o1 !! strip idc = None) as Hnew.
  { apply eq_None_not_Some. intros Hin. apply Hids in Hin.
    apply (Hfresh _ Hin). by left. }
  split_and!.
  - intros k j. rewrite lookup_insert. case_decide as Hk.
    + intros [= <-]. exists (strip lc). by rewrite lookup_insert_eq.
    + intros Hj. destruct (Hcons k j Hj) as (l & Hl & ?). exists l.
      split; [|done]. rewrite lookup_insert_ne; [done|]. intros <-. congruence.
  - intros i. rewrite lookup_insert. case_decide as Hi.
    + intros _. subst i. apply elem_of_app. right.
      rewrite (row_class_id_cell r idc Hidc). by left.
    + intros Hin. apply elem_of_app. left. by apply Hids.
  - rewrite map_size_insert_None by done. lia.
Qed.

(** X5.  When no class id occurs in two records, the maps of a load that
    returns agree with each other and with the source: every key of
    [label_to_id] is the lowercased label of the entity it leads to, and
    there is one entity for each record. *)
Theorem X5_distinct_ids_consistent rows o :
  load_ontology rows = Ok o → NoDup (row_class_id <$> rows) →
  (∀ k j, label_to_id o !! k = Some j →
     ∃ l, id_to_label o !! j = Some l ∧ lower l = k)
  ∧ size (id_to_label o) = length rows.
Proof.
  intros Hload Hnd.
  destruct (load_distinct_ids rows o Hload Hnd) as (? & _ & ?). done.
Qed.

(** X5 at the scenario, whose three records have three class ids. *)
Lemma X5_distinct_ids_consistent_witness :
  (∃ l, id_to_label scenario_index !! "X2" = Some l
        ∧ lower l = "cervix disorder")
  ∧ size (id_to_label scenario_index) = 3.
Proof.
  destruct (X5_distinct_ids_consistent scenario_rows scenario_index)
    as [Hcons Hsize]; [by vm_compute|compute_done|].
  split; [|exact Hsize]. apply Hcons. by vm_compute.
Defined.

Lemma row_loop_returns_iff rows :
  (∃ o, load_ontology rows = Ok o) ↔ Forall (λ r, ¬ fatal r) rows.
Proof.
  split.
  - intros [o Hload]. apply Forall_forall. intros r Hin Hbad.
    destruct (for_each_raise load_row rows r Hin) with (st := Ontology ∅ ∅ ∅)
      as [e He].
    + intros o'. by apply load_row_raises.
    + unfold load_ontology in Hload. congruence.
  - unfold load_ontology. generalize (Ontology ∅ ∅ ∅).
    induction rows as [|r rows IH]; intros o Hall; simpl; [by eauto|].
    apply Forall_cons in Hall as [Hr Hall].
    destruct (load_row_not_fatal o r Hr) as [o1 ->]. simpl. by apply IH.
Qed.

(** X6.  When the load returns.  On a source of which the reader yields
    some records and then stops, at the end of the file or with an error of
    its own, [load_ontology] returns exactly when the reader stops without
    error and no record yielded is fatal.  The body of the row loop raises
    exactly when a record yielded is fatal; the reader's error comes through
    exactly when there is one and no record yielded is fatal. *)
Theorem X6_load_returns_iff src :
  ((∃ o, load_source src = Loaded o) ↔
   failure src = None ∧ Forall (λ r, ¬ fatal r) (yielded src))
  ∧ ((∃ e, load_source src = RowRaised e) ↔ Exists fatal (yielded src))
  ∧ (∀ e, load_source src = ReaderRaised e ↔
       failure src = Some e ∧ Forall (λ r, ¬ fatal r) (yielded src)).
Proof.
  pose proof (row_loop_returns_iff (yielded src)) as Hiff.
  unfold load_source.
  destruct (load_ontology (yielded src)) as [o|e0] eqn:Hload.
  - assert (Forall (λ r, ¬ fatal r) (yielded src)) as Hall
      by (apply Hiff; eauto).
    split_and!.
    + destruct (failure src); split; [by intros [? ?]|by intros [? _]
                                     |by eauto|by eauto].
    + split; [by destruct (failure src); intros [? ?]|].
      intros (r & Hin & Hbad)%Exists_exists.
      rewrite Forall_forall in Hall. by destruct (Hall r Hin).
    + intros e. destruct (failure src); split;
        [by intros [= ->]|by intros [[= ->] _]|done|by intros [? _]].
  - assert (¬ Forall (λ r, ¬ fatal r) (yielded src)) as Hnot.
    { intros Hall. apply Hiff in Hall as [o ?]. done. }
    split_and!.
    + split; [by intros [? ?]|by intros [_ ?]].
    + split; [intros _|by eauto].
      apply not_Forall_Exists in Hnot; [|apply _].
      eapply Exists_impl; [exact Hnot|]. intros r Hr. simpl in Hr.
      by apply dec_stable.
    + intros e. split; [done|by intros [_ ?]].
Qed.

(** X6 at the scenario read to its end, at the scenario cut short by the
    reader, and at the source with a record without label. *)
Lemma X6_load_returns_iff_witness :
  (∃ o, load_source (Source scenario_rows None) = Loaded o)
  ∧ (∃ e, load_source (Source no_label_rows None) = RowRaised e)
  ∧ load_source (Source scenario_rows (Some CsvError)) = ReaderRaised CsvError.
Proof.
  destruct (X6_load_returns_iff (Source scenario_rows None)) as (Hret & _ & _).
  destruct (X6_load_returns_iff (Source no_label_rows None)) as (_ & Hrow & _).
  destruct (X6_load_returns_iff (Source scenario_rows (Some CsvError)))
    as (_ & _ & Hreader).
  split_and!.
  - apply Hret. split; [done|compute_done].
  - apply Hrow. compute_done.
  - apply Hreader. split; [done|compute_done].
Defined.

(** ** More about the traversal *)

Lemma hops_real_listed g n c v :
  v ∈ hops (real_parents g) n c → v ∈ hops (listed_parents g) n c.
Proof.
  revert v. induction n as [|n IH]; intros v; [done|].
  intros (u & Hu & Hv)%hops_S. apply hops_S. exists u. split; [by apply IH|].
  by apply real_parents_spec in Hv as [? _].
Qed.

Lemma for_parents_skip itl d ps st :
  (∀ p, p ∈ ps → p = Thing ∨ p ∈ visited st) →
  for_each (visit_parent itl d) ps st = Ok st.
Proof.
  induction ps as [|p ps IH]; intros Hps; simpl; [done|].
  assert (visit_parent itl d st p = Ok st) as ->.
  { destruct (Hps p) as [->|?]; [by left|apply visit_parent_Thing|].
    by apply visit_parent_seen. }
  simpl. apply IH. intros p' Hp'. apply Hps. by right.
Qed.

(** X7.  Depths as the docstring gives them.  No entry has depth 0; an
    entry of depth 1 is the label of a listed parent of the start, an entry
    of depth 2 the label of a listed parent of such a parent; and the label
    of every listed parent of the start, other than the sentinel and the
    start, is a key of the result. *)
Theorem X7_depth_meaning c g itl :
  ∃ r, get_ancestors_with_depth c g itl = Some (Ok r)
    ∧ (∀ l d, r !! l = Some d → 1 ≤ d)
    ∧ (∀ l, r !! l = Some 1 →
         ∃ p, p ∈ get g c [] ∧ itl !! p = Some l)
    ∧ (∀ l, r !! l = Some 2 →
         ∃ p q, p ∈ get g c [] ∧ q ∈ get g p [] ∧ itl !! q = Some l)
    ∧ (∀ p l, p ∈ get g c [] → p ≠ Thing → p ≠ c → itl !! p = Some l →
         is_Some (r !! l)).
Proof.
  destruct (get_ancestors_with_depth_spec c g itl) as (r & Hr & Hsound & Hcompl).
  exists r. split_and!; [done|..].
  - intros l d Hl. destruct (Hsound l d Hl) as (v & Hvc & _ & Hmin).
    destruct d; [|lia]. by apply min_hops_0 in Hmin.
  - intros l Hl. destruct (Hsound l 1 Hl) as (v & _ & Hvl & [Hv _]).
    apply hops_real_listed, hops_S in Hv as (u & ->%hops_0 & Hv). eauto.
  - intros l Hl. destruct (Hsound l 2 Hl) as (v & _ & Hvl & [Hv _]).
    apply hops_real_listed, hops_S in Hv as (p & Hp & Hv).
    apply hops_S in Hp as (u & ->%hops_0 & Hp). eauto.
  - intros p l Hp Hne Hpc Hl.
    assert (min_hops (real_parents g) c p 1) as Hmin.
    { apply min_hops_intro.
      - apply hops_S. exists c. split; [by apply hops_0|].
        by apply real_parents_spec.
      - intros d' Hd' Hin. assert (d' = 0) as -> by lia.
        by apply hops_0 in Hin. }
    destruct (Hcompl p 1 l Hmin Hpc Hl) as (d' & -> & _). eauto.
Qed.

(** X7 at the diamond: B is a parent of A, D a parent of that parent. *)
Lemma X7_depth_meaning_witness :
  ∃ r, get_ancestors_with_depth "A" diamond_graph diamond_names = Some (Ok r)
    ∧ is_Some (r !! "B")
    ∧ ∃ p q, p ∈ get diamond_graph "A" [] ∧ q ∈ get diamond_graph p []
             ∧ diamond_names !! q = Some "D".
Proof.
  destruct (X7_depth_meaning "A" diamond_graph diamond_names)
    as (r & Hr & _ & _ & Htwo & Hparent).
  exists r. split_and!; [exact Hr| |].
  - apply (Hparent "B"); [compute_done|done|done|done].
  - apply Htwo. rewrite diamond_result in Hr. by simplify_eq.
Defined.

(** X8.  A class at the top has no ancestors: when every listed parent of
    the start is the sentinel, or the start itself, the result is empty. *)
Theorem X8_top_class_has_no_ancestors c g itl :
  (∀ p, p ∈ get g c [] → p = Thing ∨ p = c) →
  get_ancestors_with_depth c g itl = Some (Ok ∅).
Proof.
  intros Htop. unfold get_ancestors_with_depth, get_ancestors_with_depth_fuel.
  destruct (size (universe g c)) as [|n] eqn:Hsize.
  { apply size_empty_inv in Hsize. unfold universe in Hsize. set_solver. }
  unfold bfs_run. simpl. unfold iteration. simpl.
  rewrite for_parents_skip.
  - by destruct n.
  - intros p Hp. simpl. destruct (Htop p Hp) as [?| ->]; [by left|right].
    by apply elem_of_singleton.
Qed.

(** X8 at a class whose only parent is the sentinel. *)
Lemma X8_top_class_has_no_ancestors_witness :
  get_ancestors_with_depth "A" sentinel_start_graph sentinel_start_names
  = Some (Ok ∅).
Proof.
  apply X8_top_class_has_no_ancestors.
  intros p Hp. left. vm_compute in Hp.
  by apply list_elem_of_singleton in Hp.
Defined.

(** X9.  Ancestors of an ancestor are ancestors.  When the traversal from
    [c] reaches [a], every key of the result of [a] is a key of the result of
    [c], or else the label of [c] itself, met again through a cycle. *)
Theorem X9_ancestors_compose c a g itl da :
  min_hops (real_parents g) c a da →
  ∃ rc ra,
    get_ancestors_with_depth c g itl = Some (Ok rc)
    ∧ get_ancestors_with_depth a g itl = Some (Ok ra)
    ∧ ∀ key, is_Some (ra !! key) → is_Some (rc !! key) ∨ itl !! c = Some key.
Proof.
  intros [Ha _].
  destruct (get_ancestors_with_depth_spec c g itl) as (rc & Hrc & _ & Hcompl).
  destruct (get_ancestors_with_depth_spec a g itl) as (ra & Hra & Hsound & _).
  exists rc, ra. split_and!; [done..|].
  intros key [d Hd]. destruct (Hsound key d Hd) as (v & _ & Hvl & [Hv _]).
  pose proof (hops_add _ _ _ _ _ _ Ha Hv) as Hcv.
  apply hops_min_hops in Hcv as (d' & _ & Hmin).
  destruct (decide (v = c)) as [->|Hvc]; [by right|left].
  destruct (Hcompl v d' key Hmin Hvc Hvl) as (d'' & -> & _). eauto.
Qed.

(** X9 at S -> U -> A -> B: the ancestor b of A is an ancestor of S. *)
Lemma X9_ancestors_compose_witness :
  ∃ rc ra,
    get_ancestors_with_depth "S" unlabelled_graph unlabelled_names_distinct
    = Some (Ok rc)
    ∧ get_ancestors_with_depth "A" unlabelled_graph unlabelled_names_distinct
      = Some (Ok ra)
    ∧ (is_Some (ra !! "b") →
       is_Some (rc !! "b") ∨ unlabelled_names_distinct !! "S" = Some "b").
Proof.
  destruct (X9_ancestors_compose "S" "A" unlabelled_graph
              unlabelled_names_distinct 2) as (rc & ra & Hrc & Hra & Hkeys);
    [compute_done|].
  exists rc, ra. split_and!; [exact Hrc|exact Hra|apply Hkeys].
Defined.

Lemma hops_in_universe g c n v :
  v ∈ hops (real_parents g) n c → v ∈ universe g c.
Proof.
  destruct n as [|n].
  - intros ->%hops_0. unfold universe. set_solver.
  - intros (u & _ & Hv)%hops_S. apply real_parents_spec in Hv as [Hv _].
    by apply (parents_in_universe g c u).
Qed.

Section Locality.
Variables g g' : gmap string (list string).
Variables itl itl' : gmap string string.
Variable c : string.

(** The two ontologies agree on every id the traversal from [c] reaches. *)
Hypothesis agree : ∀ v d, min_hops (real_parents g) c v d →
  get g' v [] = get g v [] ∧ itl' !! v = itl !! v.

Lemma visit_parent_agree u k st p :
  bfs_inv g itl c (Some u) k st → p ∈ get g u [] →
  visit_parent itl' k st p = visit_parent itl k st p.
Proof using agree.
  intros HI Hp.
  destruct (decide (p = Thing)) as [->|Hne]; [by rewrite !visit_parent_Thing|].
  destruct (decide (p ∈ visited st)) as [?|Hnew];
    [by rewrite !visit_parent_seen|].
  rewrite !visit_parent_new by done.
  assert (min_hops (real_parents g) c p (k + 1)) as Hmin.
  { apply (fresh_parent_min_hops g itl c u k st p); [done| |done].
    by apply real_parents_spec. }
  by destruct (agree p (k + 1) Hmin) as [_ ->].
Qed.

Lemma for_parents_agree u k ps st :
  bfs_inv g itl c (Some u) k st → (∀ p, p ∈ ps → p ∈ get g u []) →
  for_each (visit_parent itl' k) ps st = for_each (visit_parent itl k) ps st.
Proof using agree.
  revert st. induction ps as [|p ps IH]; intros st HI Hps; simpl; [done|].
  rewrite (visit_parent_agree u k st p HI) by (apply Hps; by left).
  destruct (visit_parent_inv g itl c u k st p HI) as (st1 & -> & HI1 & _);
    [apply Hps; by left|].
  simpl. apply IH; [done|]. intros p' Hp'. apply Hps. by right.
Qed.

Lemma iteration_agree st :
  loop_inv g itl c st → iteration g' itl' st = iteration g itl st.
Proof using agree.
  intros (k & HI & Hk). unfold iteration.
  destruct (queue st) as [|[u k0] rest] eqn:Hq; [done|].
  assert (k0 = k) as -> by by eapply Hk.
  destruct (inv_queue _ _ _ _ _ _ HI u k) as (_ & Hmin & _);
    [rewrite Hq; by left|].
  destruct (agree u k Hmin) as [-> _].
  apply (for_parents_agree u k); [by apply inv_pop|done].
Qed.

Lemma while_queue_agree fuel st :
  loop_inv g itl c st →
  while_queue fuel g' itl' st = while_queue fuel g itl st.
Proof using agree.
  revert st. induction fuel as [|fuel IH]; intros st HI; simpl; [done|].
  destruct (queue st) as [|x rest] eqn:Hq; [done|].
  rewrite (iteration_agree st HI).
  destruct (iteration_inv g itl c st HI) as (st1 & -> & HI1 & _);
    [by rewrite Hq|].
  by apply IH.
Qed.

End Locality.

(** X10.  Only what the traversal reaches matters.  Two ontologies that
    hold the same parent list and the same label for every id the traversal
    from [c] reaches in the first give the same result for [c]: records of
    entities that are no ancestors of [c] do not change its answer. *)
Theorem X10_unreached_entities_do_not_matter g g' itl itl' c :
  (∀ v d, min_hops (real_parents g) c v d →
     get g' v [] = get g v [] ∧ itl' !! v = itl !! v) →
  get_ancestors_with_depth c g' itl' = get_ancestors_with_depth c g itl.
Proof.
  intros Hagree.
  set (fuel := size (universe g c) `max` size (universe g' c)).
  rewrite <- (get_ancestors_with_depth_fuel_enough fuel c g' itl') by lia.
  rewrite <- (get_ancestors_with_depth_fuel_enough fuel c g itl) by lia.
  unfold get_ancestors_with_depth_fuel, bfs_run.
  by rewrite (while_queue_agree g g' itl itl' c Hagree fuel (initial c)
                (initial_inv g itl c)).
Qed.

(** X10 at the diamond with one more entity Q below A. *)
Lemma X10_unreached_entities_do_not_matter_witness :
  get_ancestors_with_depth "A" (<["Q" := ["A"]]> diamond_graph)
    (<["Q" := "q"]> diamond_names)
  = get_ancestors_with_depth "A" diamond_graph diamond_names.
Proof.
  apply X10_unreached_entities_do_not_matter.
  intros v d [Hv _]. apply hops_in_universe in Hv.
  assert ("Q" ∉ universe diamond_graph "A") as Hfresh by compute_done.
  assert (v ≠ "Q") as Hne by (by intros ->).
  unfold get. by rewrite !lookup_insert_ne.
Defined.

(** ** The handler of [/ancestors] *)

Lemma copy_items (m : gmap string nat) :
  map_fold (λ label depth output, <[label := depth]> output) ∅ m = m.
Proof.
  apply (map_fold_weak_ind (λ r m, r = m)); [done|].
  intros i x m' r _ ->. done.
Qed.

Lemma get_ancestors_found o q cid :
  find_entity_id q (id_to_label o) (label_to_id o) = Ok (Some cid) →
  cid ≠ "" →
  ∃ r, get_ancestors_with_depth cid (graph o) (id_to_label o) = Some (Ok r)
       ∧ get_ancestors o q = Some (Returns r).
Proof.
  intros Hfind Hne.
  destruct (get_ancestors_with_depth_spec cid (graph o) (id_to_label o))
    as (r & Hr & _).
  exists r. split; [done|]. unfold get_ancestors. rewrite Hfind.
  destruct cid; [done|]. simpl. by rewrite Hr, copy_items.
Qed.

Lemma find_entity_id_returns o q :
  ∃ answer, find_entity_id q (id_to_label o) (label_to_id o) = Ok answer.
Proof.
  destruct (id_to_label o !! strip q) eqn:Hid.
  - rewrite find_entity_id_by_id by (rewrite Hid; eauto). eauto.
  - rewrite find_entity_id_by_label by done. eauto.
Qed.

(** X11.  The handler of [/ancestors] answers in one of two ways and lets
    no exception through.  It raises [HTTPException] 404 exactly when the
    resolver returns [None] or the empty class id; otherwise it returns the
    mapping that the traversal from the resolved id yields, unchanged. *)
Theorem X11_get_ancestors_answers o q :
  (find_entity_id q (id_to_label o) (label_to_id o) = Ok None
   ∨ find_entity_id q (id_to_label o) (label_to_id o) = Ok (Some "") ↔
   get_ancestors o q = Some (HTTPException 404 "Entity not found"))
  ∧ (∀ cid, find_entity_id q (id_to_label o) (label_to_id o) = Ok (Some cid) →
       cid ≠ "" →
       ∃ r, get_ancestors_with_depth cid (graph o) (id_to_label o)
            = Some (Ok r)
            ∧ get_ancestors o q = Some (Returns r))
  ∧ (∃ answer, get_ancestors o q = Some answer
       ∧ ∀ e, answer ≠ Uncaught e).
Proof.
  destruct (find_entity_id_returns o q) as [answer Hfind].
  split_and!.
  - split.
    + unfold get_ancestors. by intros [-> | ->].
    + destruct answer as [cid|]; [|by left].
      destruct (decide (cid = "")) as [->|Hne]; [by right|].
      destruct (get_ancestors_found o q cid Hfind Hne) as (r & _ & ->). done.
  - intros cid. apply get_ancestors_found.
  - destruct answer as [cid|].
    + destruct (decide (cid = "")) as [->|Hne].
      * unfold get_ancestors. rewrite Hfind. simpl. eauto.
      * destruct (get_ancestors_found o q cid Hfind Hne) as (r & _ & ->). eauto.
    + unfold get_ancestors. rewrite Hfind. eauto.
Qed.

(** X11 at a source whose first entity has a blank class id: the resolver
    finds it by its label, the handler answers 404; the entity X1 is
    served. *)
Lemma X11_get_ancestors_answers_witness :
  ∃ o, load_ontology blank_id_rows = Ok o
    ∧ find_entity_id "Nameless" (id_to_label o) (label_to_id o) = Ok (Some "")
    ∧ get_ancestors o "Nameless" = Some (HTTPException 404 "Entity not found")
    ∧ ∃ r, get_ancestors o "disorder" = Some (Returns r).
Proof.
  destruct (load_ontology blank_id_rows) as [o|] eqn:Hload;
    [|by vm_compute in Hload].
  vm_compute in Hload. injection Hload as <-.
  eexists. split; [reflexivity|].
  match goal with |- context [get_ancestors ?o _] => set (idx := o) end.
  destruct (X11_get_ancestors_answers idx "Nameless") as ([H404 _] & _ & _).
  destruct (X11_get_ancestors_answers idx "disorder") as (_ & Hserved & _).
  split_and!.
  - by vm_compute.
  - apply H404. right. by vm_compute.
  - destruct (Hserved "X1") as (r & _ & Hr); [by vm_compute|done|].
    by exists r.
Defined.

(** X12.  Load, resolve, traverse.  On the maps of a load that returns and
    holds no empty class id, the handler of [/ancestors] serves every entity,
    asked for by its class id or by its label: it never answers 404 for
    them, and asked by class id it returns the ancestors of that very id. *)
Theorem X12_loaded_entities_are_served rows o :
  load_ontology rows = Ok o → id_to_label o !! "" = None →
  ∀ i l, id_to_label o !! i = Some l →
    (∃ r, get_ancestors_with_depth i (graph o) (id_to_label o) = Some (Ok r)
          ∧ get_ancestors o i = Some (Returns r))
    ∧ (∃ r, get_ancestors o l = Some (Returns r)).
Proof.
  intros Hload Hblank i l Hl.
  destruct (load_then_resolve rows o Hload) as [Hid Hlabel]. split.
  - apply get_ancestors_found; [apply Hid; eauto|]. intros ->. congruence.
  - destruct (Hlabel i l Hl) as (j & Hj & [l' Hl']).
    destruct (get_ancestors_found o l j Hj) as (r & _ & Hr); [|by eauto].
    intros ->. congruence.
Qed.

(** X12 at the scenario: X2 asked for by its id and by its label. *)
Lemma X12_loaded_entities_are_served_witness :
  (∃ r, get_ancestors_with_depth "X2" (graph scenario_index)
          (id_to_label scenario_index) = Some (Ok r)
        ∧ get_ancestors scenario_index "X2" = Some (Returns r))
  ∧ (∃ r, get_ancestors scenario_index "Cervix DISORDER" = Some (Returns r)).
Proof.
  apply (X12_loaded_entities_are_served scenario_rows scenario_index);
    by vm_compute.
Defined.

(** ** Substrings *)

Lemma app_cons a s t : String a s +:+ t = String a (s +:+ t).
Proof. reflexivity. Qed.

Lemma app_nil_l s : "" +:+ s = s.
Proof. reflexivity. Qed.

Lemma app_assoc_str s t u : (s +:+ t) +:+ u = s +:+ (t +:+ u).
Proof.
  induction s as [|a s IH]; [done|]. by rewrite !app_cons, IH.
Qed.

Lemma startswith_spec s p : startswith s p = true ↔ ∃ t, s = p +:+ t.
Proof.
  revert s. induction p as [|a p IH]; intros s.
  - split; [intros _; by exists s|intros _; by destruct s].
  - destruct s as [|b s]; simpl.
    + split; [done|]. by intros [t Ht].
    + rewrite andb_true_iff, IH, Ascii.eqb_eq. split.
      * intros [-> [t ->]]. by exists t.
      * intros [t Ht]. rewrite app_cons in Ht. injection Ht as -> ->. eauto.
Qed.

Lemma str_in_spec n h : str_in n h = true ↔ ∃ a b, h = a +:+ n +:+ b.
Proof.
  induction h as [|c h IH].
  - cbn [str_in]. rewrite orb_false_r, startswith_spec. split.
    + intros [t Ht]. by exists "", t.
    + intros (a & b & Hab). destruct a; [by exists b|done].
  - cbn [str_in]. rewrite orb_true_iff, IH, startswith_spec. split.
    + intros [[t Ht]|(a & b & ->)]; [by exists "", t|].
      by exists (String c a), b.
    + intros (a & b & Hab). destruct a as [|c' a].
      * left. by exists b.
      * right. rewrite app_cons in Hab. injection Hab as -> ->. eauto.
Qed.

Lemma str_in_empty h : str_in "" h = true.
Proof. apply str_in_spec. by exists "", h. Qed.

Lemma str_in_trans n m h :
  str_in n m = true → str_in m h = true → str_in n h = true.
Proof.
  rewrite !str_in_spec. intros (a & b & ->) (x & y & ->).
  exists (x +:+ a), (b +:+ y). by rewrite !app_assoc_str.
Qed.

(** ** Dicts in iteration order *)

Lemma dict_setitem_map {V} k (v : V) d :
  list_to_map (dict_setitem k v d) =@{gmap string V} <[k := v]> (list_to_map d).
Proof.
  induction d as [|[k' v'] d IH]; simpl; [done|].
  destruct (String.eqb_spec k' k) as [->|Hne]; simpl.
  - by rewrite insert_insert_eq.
  - by rewrite IH, insert_insert_ne.
Qed.

Lemma dict_setitem_keys {V} k (v : V) d x :
  x ∈ (dict_setitem k v d).*1 ↔ x = k ∨ x ∈ d.*1.
Proof.
  induction d as [|[k' v'] d IH]; simpl.
  - rewrite list_elem_of_singleton. set_solver.
  - destruct (String.eqb_spec k' k) as [->|Hne]; simpl.
    + set_solver.
    + rewrite !elem_of_cons, IH. tauto.
Qed.

Lemma dict_setitem_nodup {V} k (v : V) d :
  NoDup d.*1 → NoDup (dict_setitem k v d).*1.
Proof.
  induction d as [|[k' v'] d IH]; simpl; [intros _; apply NoDup_singleton|].
  intros [Hk' Hd]%NoDup_cons.
  destruct (String.eqb_spec k' k) as [->|Hne]; simpl.
  - by apply NoDup_cons.
  - apply NoDup_cons. split; [|by apply IH].
    rewrite dict_setitem_keys. intros [->|?]; done.
Qed.

Lemma load_row_items_agree o items r :
  list_to_map items = id_to_label o → NoDup items.*1 →
  match load_row o r, load_row_items items r with
  | Ok o', Ok items' =>
      list_to_map items' = id_to_label o' ∧ NoDup items'.*1
  | Raise e, Raise e' => e = e'
  | _, _ => False
  end.
Proof.
  intros Hmap Hnd. unfold load_row, load_row_items.
  destruct (getitem r "Class ID") as [[idc|]|]; simpl; try done.
  destruct (getitem r "Preferred Label") as [[lc|]|]; simpl; try done.
  destruct (parents_field r) as [parents|]; simpl; try done.
  destruct (truthy parents); simpl;
    (split; [by rewrite dict_setitem_map, Hmap|by apply dict_setitem_nodup]).
Qed.

Lemma load_items_agree rows o items :
  list_to_map items = id_to_label o → NoDup items.*1 →
  match for_each load_row rows o, for_each load_row_items rows items with
  | Ok o', Ok items' =>
      list_to_map items' = id_to_label o' ∧ NoDup items'.*1
  | Raise e, Raise e' => e = e'
  | _, _ => False
  end.
Proof.
  revert o items. induction rows as [|r rows IH]; intros o items Hmap Hnd;
    simpl; [done|].
  pose proof (load_row_items_agree o items r Hmap Hnd) as Hstep.
  destruct (load_row o r) as [o1|], (load_row_items items r) as [items1|];
    simpl; try done.
  destruct Hstep. by apply IH.
Qed.

Lemma id_to_label_items_agree rows o :
  load_ontology rows = Ok o →
  ∃ items, id_to_label_items rows = Ok items
    ∧ list_to_map items = id_to_label o ∧ NoDup items.*1.
Proof.
  unfold load_ontology, id_to_label_items. intros Hload.
  assert (list_to_map [] = id_to_label (Ontology ∅ ∅ ∅)) as Hmap by done.
  pose proof (load_items_agree rows _ [] Hmap (NoDup_nil_2)) as Hagree.
  rewrite Hload in Hagree.
  destruct (for_each load_row_items rows []) as [items|]; [|done]. eauto.
Qed.

(** ** The handler of [/search] *)

Lemma filter_all {A} (P : A → Prop) `{!∀ x, Decision (P x)} (l : list A) :
  (∀ x, P x) → filter P l = l.
Proof.
  intros HP. induction l as [|x l IH]; [done|].
  by rewrite filter_cons_True, IH.
Qed.

Example search_ex :
  search_labels [("X1", "Disorder"); ("X2", "Cervix DISORDER"); ("R", "Thing")]
    "diSO" = ["Disorder"; "Cervix DISORDER"].
Proof. reflexivity. Qed.

(** X13.  On the maps of a load that returns, a label is suggested exactly
    when it is the label of an entity and its lowercase form contains the
    lowercase form of the query. *)
Theorem X13_search_membership rows o items q :
  load_ontology rows = Ok o → id_to_label_items rows = Ok items →
  ∀ l, l ∈ search_labels items q ↔
    (∃ i, id_to_label o !! i = Some l)
    ∧ ∃ a b, lower l = a +:+ lower q +:+ b.
Proof.
  intros Hload Hitems l.
  destruct (id_to_label_items_agree rows o Hload) as (items' & Hitems' & Hmap & Hnd).
  assert (items' = items) as -> by congruence.
  unfold search_labels. rewrite list_elem_of_filter, Is_true_true, str_in_spec.
  rewrite list_elem_of_fmap. split.
  - intros [Hsub ([i l'] & -> & Hin)]. split; [|done]. exists i.
    rewrite <- Hmap. by apply elem_of_list_to_map.
  - intros [[i Hi] Hsub]. split; [done|]. exists (i, l). split; [done|].
    rewrite <- Hmap in Hi. by apply elem_of_list_to_map in Hi.
Qed.

(** X13 at the scenario, asked for "DISO". *)
Lemma X13_search_membership_witness :
  "Cervix DISORDER"
  ∈ search_labels
      [("X1", "Disorder"); ("X2", "Cervix DISORDER"); ("ROOT", "Thing")] "DISO"
  ↔ (∃ i, id_to_label scenario_index !! i = Some "Cervix DISORDER")
    ∧ ∃ a b, lower "Cervix DISORDER" = a +:+ lower "DISO" +:+ b.
Proof.
  apply (X13_search_membership scenario_rows scenario_index); by vm_compute.
Defined.

(** X14.  The empty query suggests everything: one label for each entity, in
    the iteration order of [id_to_label], a label that several entities
    carry as often as they carry it. *)
Theorem X14_search_empty_query rows o items :
  load_ontology rows = Ok o → id_to_label_items rows = Ok items →
  search_labels items "" = items.*2
  ∧ length (search_labels items "") = size (id_to_label o).
Proof.
  intros Hload Hitems.
  destruct (id_to_label_items_agree rows o Hload) as (items' & Hitems' & Hmap & Hnd).
  assert (items' = items) as -> by congruence.
  assert (search_labels items "" = items.*2) as ->.
  { unfold search_labels. apply filter_all. intros l. simpl.
    rewrite str_in_empty. done. }
  split; [done|]. rewrite length_fmap, <- Hmap.
  by rewrite map_size_list_to_map.
Qed.

(** X14 at two entities with one label. *)
Lemma X14_search_empty_query_witness :
  search_labels [("S", "x"); ("A", "x")] "" = ["x"; "x"]
  ∧ length (search_labels [("S", "x"); ("A", "x")] "")
    = size (<["S" := "x"]> (<["A" := "x"]> (∅ : gmap string string))).
Proof.
  apply (X14_search_empty_query
           [mk_row (Some "S") (Some "x") (Some "A");
            mk_row (Some "A") (Some "x") (Some "S")]
           (Ontology cycle_names (<["x" := "A"]> ∅) cycle_graph));
    by vm_compute.
Defined.

(** X15.  A narrower query never adds suggestions.  When the lowercase form
    of [q'] contains the lowercase form of [q], the suggestions for [q'] are
    among the suggestions for [q], in the same order; and all suggestions
    are among the labels, in their order. *)
Theorem X15_search_narrows items q q' :
  (∃ a b, lower q' = a +:+ lower q +:+ b) →
  search_labels items q' `sublist_of` search_labels items q
  ∧ search_labels items q `sublist_of` items.*2.
Proof.
  intros Hsub. split; [|apply sublist_filter].
  unfold search_labels.
  rewrite <- (list_filter_filter_l
                (λ label, str_in (lower q') (lower label))
                (λ label, str_in (lower q) (lower label))).
  - apply sublist_filter.
  - intros l Hl. apply Is_true_true. apply Is_true_true in Hl.
    apply (str_in_trans _ (lower q')); [|done]. by apply str_in_spec.
Qed.

(** X15 at the queries "Dis" and "x DISO". *)
Lemma X15_search_narrows_witness :
  search_labels [("X1", "Disorder"); ("X2", "Cervix DISORDER")] "x DISO"
    `sublist_of`
    search_labels [("X1", "Disorder"); ("X2", "Cervix DISORDER")] "Dis"
  ∧ search_labels [("X1", "Disorder"); ("X2", "Cervix DISORDER")] "Dis"
      `sublist_of` [("X1", "Disorder"); ("X2", "Cervix DISORDER")].*2.
Proof.
  apply X15_search_narrows. by exists "x ", "o".
Defined.

(** ** The traversal with [relationships] in iteration order *)

Lemma visit_parent_unordered itl d st p :
  visit_parent itl d (unordered st) p
  = unordered <$> Ordered.visit_parent itl d st p.
Proof.
  unfold visit_parent, Ordered.visit_parent. simpl.
  destruct (String.eqb p Thing); [done|].
  destruct (bool_decide (p ∉ Ordered.visited st)); [|done].
  destruct (contains itl p); [|done].
  unfold getitem. destruct (itl !! p) as [l|]; [|done]. simpl.
  unfold unordered. simpl. by rewrite dict_setitem_map.
Qed.

Lemma visit_parent_keys_nodup itl d st p st' :
  NoDup (Ordered.relationships st).*1 →
  Ordered.visit_parent itl d st p = Ok st' →
  NoDup (Ordered.relationships st').*1.
Proof.
  intros Hnd. unfold Ordered.visit_parent.
  destruct (String.eqb p Thing); [by intros [= <-]|].
  destruct (bool_decide (p ∉ Ordered.visited st)); [|by intros [= <-]].
  destruct (contains itl p); [|by intros [= <-]].
  unfold getitem. destruct (itl !! p) as [l|]; [|done]. simpl.
  intros [= <-]. simpl. by apply dict_setitem_nodup.
Qed.

Lemma for_parents_unordered itl d ps st :
  for_each (visit_parent itl d) ps (unordered st)
  = unordered <$> for_each (Ordered.visit_parent itl d) ps st.
Proof.
  revert st. induction ps as [|p ps IH]; intros st; simpl; [done|].
  rewrite visit_parent_unordered.
  destruct (Ordered.visit_parent itl d st p) as [st1|e]; simpl; [|done].
  apply IH.
Qed.

Lemma iteration_unordered g itl st :
  iteration g itl (unordered st) = unordered <$> Ordered.iteration g itl st.
Proof.
  unfold iteration, Ordered.iteration. simpl.
  destruct (Ordered.queue st) as [|[u k] rest]; [done|].
  apply (for_parents_unordered itl k (get g u [])
           (Ordered.BfsState (Ordered.relationships st) rest
              (Ordered.visited st))).
Qed.

Lemma iteration_keys_nodup g itl st st' :
  NoDup (Ordered.relationships st).*1 →
  Ordered.iteration g itl st = Ok st' →
  NoDup (Ordered.relationships st').*1.
Proof.
  intros Hnd. unfold Ordered.iteration.
  destruct (Ordered.queue st) as [|[u k] rest]; [done|].
  apply (for_each_invariant (λ st, NoDup (Ordered.relationships st).*1));
    [|done].
  intros st1 p st2. apply visit_parent_keys_nodup.
Qed.

Lemma while_queue_unordered fuel g itl st :
  while_queue fuel g itl (unordered st)
  = fmap (M:=res) unordered <$> Ordered.while_queue fuel g itl st.
Proof.
  revert st. induction fuel as [|fuel IH]; intros st; simpl.
  - by destruct (Ordered.queue st).
  - destruct (Ordered.queue st) as [|x rest] eqn:Hq; [done|].
    rewrite iteration_unordered.
    destruct (Ordered.iteration g itl st) as [st1|e]; simpl; [|done].
    apply IH.
Qed.

Lemma while_queue_keys_nodup fuel g itl st st' :
  NoDup (Ordered.relationships st).*1 →
  Ordered.while_queue fuel g itl st = Some (Ok st') →
  NoDup (Ordered.relationships st').*1.
Proof.
  revert st. induction fuel as [|fuel IH]; intros st Hnd; simpl.
  - destruct (Ordered.queue st); [by intros [= <-]|done].
  - destruct (Ordered.queue st) as [|x rest]; [by intros [= <-]|].
    destruct (Ordered.iteration g itl st) as [st1|e] eqn:Hit; [|done].
    apply IH. by eapply iteration_keys_nodup.
Qed.

Lemma ordered_result c g itl :
  ∃ items, Ordered.get_ancestors_with_depth c g itl = Some (Ok items)
    ∧ NoDup items.*1
    ∧ get_ancestors_with_depth c g itl = Some (Ok (list_to_map items)).
Proof.
  destruct (bfs_run_final c g itl) as (st & Hrun & _).
  unfold get_ancestors_with_depth, get_ancestors_with_depth_fuel,
    Ordered.get_ancestors_with_depth.
  rewrite Hrun. unfold bfs_run in Hrun.
  change (initial c) with (unordered (Ordered.initial c)) in Hrun.
  rewrite while_queue_unordered in Hrun.
  destruct (Ordered.while_queue _ g itl (Ordered.initial c))
    as [[st'|e]|] eqn:Hord; simplify_eq/=.
  exists (Ordered.relationships st'). split_and!; [done| |done].
  apply (while_queue_keys_nodup (size (universe g c)) g itl
           (Ordered.initial c) st'); [|done].
  constructor.
Qed.

(** ** Sorting by depth *)

Lemma insert_by_depth_perm x l : insert_by_depth x l ≡ₚ x :: l.
Proof.
  induction l as [|y l IH]; simpl; [done|].
  case_decide; [done|]. rewrite IH. apply Permutation_swap.
Qed.

Lemma sorted_by_depth_perm l : sorted_by_depth l ≡ₚ l.
Proof.
  induction l as [|x l IH]; simpl; [done|].
  by rewrite insert_by_depth_perm, IH.
Qed.

Lemma insert_by_depth_sorted x l :
  StronglySorted by_depth l → StronglySorted by_depth (insert_by_depth x l).
Proof.
  induction l as [|y l IH]; simpl; [repeat constructor|].
  intros [Hy Hl]%StronglySorted_cons. case_decide as Hxy.
  - apply StronglySorted_cons. split; [|by apply StronglySorted_cons].
    constructor; [done|]. eapply Forall_impl; [exact Hy|].
    unfold by_depth in *. intros z Hz. simpl in *. lia.
  - apply StronglySorted_cons. split; [|by apply IH].
    rewrite insert_by_depth_perm. constructor; [|done].
    unfold by_depth in *. lia.
Qed.

Lemma sorted_by_depth_sorted l : StronglySorted by_depth (sorted_by_depth l).
Proof.
  induction l as [|x l IH]; simpl; [constructor|].
  by apply insert_by_depth_sorted.
Qed.

(** ** The command line program *)

Lemma main_resolved rows q o :
  load_ontology rows = Ok o →
  main rows q =
    match find_entity_id q (id_to_label o) (label_to_id o) with
    | Raise e => Some (Traceback e)
    | Ok None => Some (SystemExit 1 ["Entity not found in ontology."])
    | Ok (Some class_id) =>
        match Ordered.get_ancestors_with_depth class_id (graph o)
                (id_to_label o) with
        | Some (Ok relationships) =>
            Some (Finished
                    (["{"] ++ (format_entry <$> sorted_by_depth relationships)
                     ++ ["}"]))
        | Some (Raise e) => Some (Traceback e)
        | None => None
        end
    end.
Proof. intros Hload. unfold main. by rewrite Hload. Qed.



(** X17.  What the program prints for a query that resolves: an opening
    brace, one line for each entry of the result of the traversal from the
    resolved id, and a closing brace.  Every entry of the result is printed
    once, and the lines come in the order of their depths, smallest
    first. *)
Theorem X17_main_prints_sorted_result rows q o cid :
  load_ontology rows = Ok o →
  find_entity_id q (id_to_label o) (label_to_id o) = Ok (Some cid) →
  ∃ r entries,
    get_ancestors_with_depth cid (graph o) (id_to_label o) = Some (Ok r)
    ∧ main rows q
      = Some (Finished (["{"] ++ (format_entry <$> entries) ++ ["}"]))
    ∧ StronglySorted by_depth entries
    ∧ NoDup entries.*1
    ∧ (∀ l d, (l, d) ∈ entries ↔ r !! l = Some d)
    ∧ length entries = size r.
Proof.
  intros Hload Hfind.
  destruct (ordered_result cid (graph o) (id_to_label o))
    as (items & Hitems & Hnd & Hr).
  exists (list_to_map items), (sorted_by_depth items).
  assert (NoDup (sorted_by_depth items).*1) as Hnd'.
  { by rewrite sorted_by_depth_perm. }
  assert (list_to_map (sorted_by_depth items)
          =@{gmap string nat} list_to_map items) as Hmap.
  { apply list_to_map_proper; [done|apply sorted_by_depth_perm]. }
  split_and!; [done| |apply sorted_by_depth_sorted|done| |].
  - by rewrite (main_resolved rows q o Hload), Hfind, Hitems.
  - intros l d. rewrite <- Hmap. by apply elem_of_list_to_map.
  - rewrite <- Hmap. by rewrite map_size_list_to_map.
Qed.

(** X17 at the source with a blank class id: asked for by its label, the
    entity with the empty id gets its ancestors printed. *)
Lemma X17_main_prints_sorted_result_witness :
  ∃ entries,
    main blank_id_rows "Nameless"
    = Some (Finished (["{"] ++ (format_entry <$> entries) ++ ["}"]))
    ∧ StronglySorted by_depth entries
    ∧ length entries = 1.
Proof.
  destruct (load_ontology blank_id_rows) as [o|] eqn:Hload;
    [|by vm_compute in Hload].
  destruct (X17_main_prints_sorted_result blank_id_rows "Nameless" o "")
    as (r & entries & Hr & Hmain & Hsorted & _ & _ & Hlen); [done| |].
  { vm_compute in Hload. injection Hload as <-. by vm_compute. }
  exists entries. split_and!; [exact Hmain|exact Hsorted|].
  rewrite Hlen. vm_compute in Hload. injection Hload as <-.
  vm_compute in Hr. injection Hr as <-. by vm_compute.
Defined.

Example main_scenario :
  main scenario_rows " CERVIX disorder "
  = Some (Finished
            ["{"; format_entry ("Disorder", 1); format_entry ("Thing", 1);
             "}"]).
Proof. by vm_compute. Qed.

(** ** Resolving twice *)

(** X18.  Resolving is idempotent on loaded maps: the class id that the
    resolver returns for a query resolves to itself. *)
Theorem X18_resolve_idempotent rows o q i :
  load_ontology rows = Ok o →
  find_entity_id q (id_to_label o) (label_to_id o) = Ok (Some i) →
  find_entity_id i (id_to_label o) (label_to_id o) = Ok (Some i).
Proof.
  intros Hload Hfind.
  destruct (load_normalised rows o Hload) as [Hitl Hlti].
  destruct (load_then_resolve rows o Hload) as [Hid _]. apply Hid.
  destruct (id_to_label o !! strip q) eqn:Hq.
  - rewrite find_entity_id_by_id in Hfind by (rewrite Hq; eauto).
    injection Hfind as <-. rewrite Hq. eauto.
  - rewrite find_entity_id_by_label in Hfind by done.
    injection Hfind as Hl. by destruct (Hlti _ _ Hl) as (_ & _ & ?).
Qed.

(** X18 at the scenario: the label of X2 leads to X2, and X2 to itself. *)
Lemma X18_resolve_idempotent_witness :
  find_entity_id "X2" (id_to_label scenario_index)
    (label_to_id scenario_index) = Ok (Some "X2").
Proof.
  apply (X18_resolve_idempotent scenario_rows scenario_index
           " cervix Disorder "); by vm_compute.
Defined.

(** ** Reading a parents cell *)

Lemma split_token sep p rest :
  split sep p = [p] →
  split sep (p +:+ String sep rest) = p :: split sep rest.
Proof.
  induction p as [|a p IH]; intros Hp.
  - rewrite app_nil_l. simpl. by rewrite Ascii.eqb_refl.
  - rewrite app_cons. simpl in *.
    destruct (Ascii.eqb a sep).
    + pose proof (split_nonempty sep p). by destruct (split sep p).
    + destruct (split sep p) as [|t ts] eqn:Hsplit;
        [by destruct (split_nonempty sep p)|].
      injection Hp as -> ->. by rewrite IH.
Qed.

Lemma split_join sep tokens :
  tokens ≠ [] → Forall (λ t, split sep t = [t]) tokens →
  split sep (join sep tokens) = tokens.
Proof.
  induction tokens as [|t tokens IH]; [done|]. intros _ [Ht Hall]%Forall_cons.
  destruct tokens as [|t' tokens]; [done|].
  change (join sep (t :: t' :: tokens))
    with (t +:+ String sep (join sep (t' :: tokens))).
  rewrite split_token by done. by rewrite IH.
Qed.

Lemma strip_fixed s :
  strip s = s ↔ lstrip s = s ∧ rstrip s = s.
Proof.
  split.
  - intros Hs.
    assert (lstrip s = s) as Hl.
    { apply lstrip_id. rewrite <- Hs. unfold strip.
      apply rstrip_keeps_head, lstrip_no_leading_space. }
    split; [done|]. unfold strip in Hs. by rewrite Hl in Hs.
  - intros [Hl Hr]. unfold strip. by rewrite Hl.
Qed.

Lemma lstrip_app_sep p sep t :
  isspace sep = false → lstrip p = p →
  lstrip (p +:+ String sep t) = p +:+ String sep t.
Proof.
  intros Hsep Hp. destruct p as [|a p].
  - rewrite app_nil_l. simpl. by rewrite Hsep.
  - rewrite app_cons. simpl in *. destruct (isspace a); [|done].
    pose proof (f_equal String.length Hp) as Hlen. simpl in Hlen.
    assert (∀ u, String.length (lstrip u) ≤ String.length u) as Hle.
    { clear. induction u as [|b u IH]; simpl; [done|].
      destruct (isspace b); simpl; lia. }
    pose proof (Hle p). lia.
Qed.

Lemma rstrip_app p u :
  u ≠ "" → rstrip u = u → rstrip (p +:+ u) = p +:+ u.
Proof.
  intros Hne Hu. induction p as [|a p IH]; [done|].
  rewrite app_cons. simpl. rewrite IH.
  destruct (p +:+ u) eqn:Hpu; [|done].
  destruct p; [by rewrite app_nil_l in Hpu|by rewrite app_cons in Hpu].
Qed.

Lemma rstrip_sep sep t :
  isspace sep = false → rstrip t = t → rstrip (String sep t) = String sep t.
Proof. intros Hsep Ht. simpl. rewrite Ht. destruct t; by rewrite ?Hsep. Qed.

Lemma strip_join sep tokens :
  isspace sep = false → Forall (λ t, strip t = t) tokens →
  strip (join sep tokens) = join sep tokens.
Proof.
  intros Hsep Hall. apply strip_fixed.
  induction tokens as [|t tokens IH]; [done|].
  apply Forall_cons in Hall as [[Hl Hr]%strip_fixed Hall].
  destruct tokens as [|t' tokens]; [done|].
  change (join sep (t :: t' :: tokens))
    with (t +:+ String sep (join sep (t' :: tokens))).
  destruct (IH Hall) as [_ Hr'].
  split; [by apply lstrip_app_sep|].
  apply rstrip_app; [done|]. by apply rstrip_sep.
Qed.

(** X19.  Reading back a parents cell.  When a cell is written by joining
    one or more parent ids with the bar, each id trimmed and free of bars,
    and the cell is not empty, the loader reads exactly these ids from it and
    stores them as the parents of a class id it has not met before. *)
Theorem X19_parents_cell_read_back o r o' cid tokens :
  tokens ≠ [] → join "|" tokens ≠ "" →
  Forall (λ t, strip t = t ∧ split "|" t = [t]) tokens →
  r !! "Parents" = Some (Some (join "|" tokens)) →
  load_row o r = Ok o' → row_class_id r = Ok cid → graph o !! cid = None →
  row_parent_list r = Ok tokens ∧ graph o' !! cid = Some tokens.
Proof.
  intros Hne Hcell Hall Hr Hload Hcid Hfresh.
  assert (row_parent_list r = Ok tokens) as Hps.
  { assert (truthy (join "|" tokens) = true) as Htruthy
      by by destruct (join "|" tokens).
    unfold row_parent_list, parents_field, getitem. rewrite Hr. simpl.
    rewrite Htruthy. simpl.
    rewrite strip_join;
      [|done|eapply Forall_impl; [exact Hall|by intros t [? _]]].
    rewrite Htruthy.
    rewrite split_join;
      [|done|eapply Forall_impl; [exact Hall|by intros t [_ ?]]].
    f_equal. clear -Hall. induction Hall as [|t ts [Ht _] _ IH]; [done|].
    by rewrite fmap_cons, Ht, IH. }
  split; [done|].
  destruct (load_row_inv o r o' Hload) as (cid' & label & ps & Hcid' & Hps' & _ & _ & ->).
  assert (cid' = cid) as -> by congruence.
  assert (ps = tokens) as -> by congruence.
  rewrite lookup_insert_eq. unfold get. rewrite Hfresh. simpl.
  by destruct tokens.
Qed.

(** X19 at a cell with three parents. *)
Lemma X19_parents_cell_read_back_witness :
  row_parent_list (mk_row (Some "X") (Some "x") (Some "P1|P 2|P3"))
  = Ok ["P1"; "P 2"; "P3"].
Proof.
  destruct (load_row (Ontology ∅ ∅ ∅)
              (mk_row (Some "X") (Some "x") (Some "P1|P 2|P3")))
    as [o'|] eqn:Hload; [|by vm_compute in Hload].
  apply (X19_parents_cell_read_back (Ontology ∅ ∅ ∅) _ o' "X"
           ["P1"; "P 2"; "P3"]); [done|done| |done|exact Hload|done|done].
  repeat constructor.
Defined.
